(** * Caliper: shallow embeddings of [MemoryPool.cpp] and [TreeFormatter.cpp]

    The first part follows [src/caliper/MemoryPool.cpp]:
    [MemoryPoolImpl::expand], [MemoryPoolImpl::allocate], the constructors,
    the destructor and the public [MemoryPool::allocate].  [size_t] values
    are integers with the 64-bit wrap-around written out, the chunk vector
    is a list read and updated by index, and the C++ free store is a list of
    live array blocks: a pointer is a block together with an element offset.

    The second part follows [src/reader/TreeFormatter.cpp]: [pad_right],
    [pad_left], [get_path_keys], [recursive_print_nodes] and [flush].  An
    output stream is the text written so far; the classes declared outside
    that file ([Attribute], [SnapshotTreeNode], [QuerySpec]) appear through
    the operations the formatter calls on them. *)

From Stdlib Require Import ZArith Lia.
From stdpp Require Import base list strings.
Local Open Scope Z_scope.

(** ** [size_t]: unsigned 64-bit arithmetic *)

Module SizeT.
Definition modulus : Z := 2 ^ 64.
Definition wrap (z : Z) : Z := z mod modulus.
Definition add (a b : Z) : Z := wrap (a + b).
Definition sub (a b : Z) : Z := wrap (a - b).
End SizeT.

(** [sizeof(uint64_t)] *)
Definition sizeof_uint64 : Z := 8.

(** [const size_t chunksize = 64 * 1024;] *)
Definition chunksize : Z := 64 * 1024.

(** The expression [(bytes+sizeof(uint64_t)-1)/sizeof(uint64_t)] shared by
    [expand] and [allocate]; every intermediate value is a [size_t]. *)
Definition slot_count (bytes : Z) : Z :=
  SizeT.sub (SizeT.add bytes sizeof_uint64) 1 / sizeof_uint64.

(** ** Pointers and the free store *)

(** A [uint64_t*]: the null pointer, or element [off] of the array [b]. *)
Inductive pointer : Type :=
| nullptr
| Ptr (b : nat) (off : Z).

(** The free store: the lengths (in [uint64_t] elements) of the arrays
    obtained so far, an array being named by its position, and the number
    of elements the system can still hand out. *)
Record Heap : Type := {
  blocks : list Z;
  avail : Z
}.

(** How a computation ends: with a value, with a C++ exception leaving the
    function ([std::bad_alloc], [std::length_error]), or in undefined
    behaviour (indexing the vector out of range, arithmetic on null). *)
Inductive outcome (A : Type) : Type :=
| Ret (a : A)
| Throw
| Undef.
Arguments Ret {A} a.
Arguments Throw {A}.
Arguments Undef {A}.

Definition bind {A B : Type} (m : outcome A) (k : A -> outcome B) : outcome B :=
  match m with
  | Ret a => k a
  | Throw => Throw
  | Undef => Undef
  end.

Notation "x <- m ; k" := (bind m (fun x => k))
  (at level 20, m at level 100, k at level 200, only parsing).
Notation "' pat <- m ; k" := (bind m (fun x => match x with pat => k end))
  (at level 20, pat pattern, m at level 100, k at level 200, only parsing).

(** [new uint64_t[len]]: a fresh array, never null; throws when the system
    cannot provide [len] more elements. *)
Definition new_uint64_array (len : Z) (h : Heap) : outcome (pointer * Heap) :=
  if len <=? avail h
  then Ret (Ptr (length (blocks h)) 0,
            {| blocks := blocks h ++ [len]; avail := avail h - len |})
  else Throw.

(** Pointer arithmetic [p + k] on [uint64_t*]. *)
Definition ptr_add (p : pointer) (k : Z) : outcome pointer :=
  match p with
  | Ptr b off => Ret (Ptr b (off + k))
  | nullptr => if k =? 0 then Ret nullptr else Undef
  end.

(** ** The pool *)

(** [struct Chunk { T* ptr; size_t wmark; size_t size; }] at [T = uint64_t] *)
Record Chunk : Type := {
  ptr : pointer;
  wmark : Z;
  size : Z
}.

(** The data members of [MemoryPoolImpl] that the allocator reads. *)
Record MemoryPoolImpl : Type := {
  m_chunks : list Chunk;
  m_index : Z;
  m_can_expand : bool
}.

(** [std::vector]: [size()], [push_back] (which throws
    [std::length_error] at [max_size()]) and the unchecked [operator[]].
    [max_size()] is the one of libstdc++ on a 64-bit target,
    [PTRDIFF_MAX / sizeof(Chunk<uint64_t>)]; the proofs only use that it is
    below [2^64]. *)
Definition vector_max_size : Z := (2 ^ 63 - 1) / 24.

Definition vector_size (v : list Chunk) : Z := Z.of_nat (length v).

Definition vector_push_back (v : list Chunk) (c : Chunk) : outcome (list Chunk) :=
  if vector_size v <? vector_max_size then Ret (v ++ [c]) else Throw.

Definition vector_at (v : list Chunk) (i : Z) : outcome Chunk :=
  match v !! Z.to_nat i with
  | Some c => Ret c
  | None => Undef
  end.

(** [void expand(size_t bytes)] *)
Definition expand (bytes : Z) (h : Heap) (p : MemoryPoolImpl)
  : outcome (Heap * MemoryPoolImpl) :=
  let len := Z.max (slot_count bytes) chunksize in
  '(a, h') <- new_uint64_array len h;
  chunks <- vector_push_back (m_chunks p) {| ptr := a; wmark := 0; size := len |};
  Ret (h', {| m_chunks := chunks;
              m_index := SizeT.sub (vector_size chunks) 1;
              m_can_expand := m_can_expand p |}).

(** The test of line 56: [m_index == m_chunks.size() ||
    m_chunks[m_index].wmark + n > m_chunks[m_index].size]. *)
Definition must_grow (n : Z) (p : MemoryPoolImpl) : outcome bool :=
  if m_index p =? vector_size (m_chunks p) then Ret true
  else
    c <- vector_at (m_chunks p) (m_index p);
    Ret (size c <? SizeT.add (wmark c) n).

(** Lines 63 to 66: take the address at the water mark of the current chunk,
    then advance the mark. *)
Definition bump (n : Z) (h : Heap) (p : MemoryPoolImpl)
  : outcome (pointer * Heap * MemoryPoolImpl) :=
  c <- vector_at (m_chunks p) (m_index p);
  q <- ptr_add (ptr c) (wmark c);
  Ret (q, h,
       {| m_chunks := <[Z.to_nat (m_index p) :=
                          {| ptr := ptr c;
                             wmark := SizeT.add (wmark c) n;
                             size := size c |}]> (m_chunks p);
          m_index := m_index p;
          m_can_expand := m_can_expand p |}).

(** [void* allocate(size_t bytes, bool can_expand)] *)
Definition allocate (bytes : Z) (can_expand : bool) (h : Heap) (p : MemoryPoolImpl)
  : outcome (pointer * Heap * MemoryPoolImpl) :=
  let n := slot_count bytes in
  g <- must_grow n p;
  if g then
    if can_expand then
      '(h', p') <- expand bytes h p;
      bump n h' p'
    else Ret (nullptr, h, p)
  else bump n h p.

(** The two configuration entries of [s_configdata]. *)
Record Config : Type := {
  pool_size : Z;
  can_expand : bool
}.

(** The defaults of [s_configdata]: ["2097152"] and ["true"]. *)
Definition default_config : Config :=
  {| pool_size := 2097152; can_expand := true |}.

(** [MemoryPoolImpl()] *)
Definition MemoryPoolImpl_ctor (cfg : Config) (h : Heap)
  : outcome (Heap * MemoryPoolImpl) :=
  expand (pool_size cfg) h
         {| m_chunks := []; m_index := 0; m_can_expand := can_expand cfg |}.

(** [MemoryPool::MemoryPool()] *)
Definition MemoryPool_ctor (cfg : Config) (h : Heap)
  : outcome (Heap * MemoryPoolImpl) :=
  MemoryPoolImpl_ctor cfg h.

(** [MemoryPool::MemoryPool(size_t bytes)] *)
Definition MemoryPool_ctor_bytes (cfg : Config) (bytes : Z) (h : Heap)
  : outcome (Heap * MemoryPoolImpl) :=
  '(h', p) <- MemoryPoolImpl_ctor cfg h;
  expand bytes h' p.

(** [void* MemoryPool::allocate(size_t bytes)]; the lock is taken before and
    released after the call and does not change the sequential result. *)
Definition MemoryPool_allocate (bytes : Z) (h : Heap) (p : MemoryPoolImpl)
  : outcome (pointer * Heap * MemoryPoolImpl) :=
  allocate bytes (m_can_expand p) h p.

(** A client issuing the requests [reqs] one after the other. *)
Fixpoint allocate_all (reqs : list Z) (h : Heap) (p : MemoryPoolImpl)
  : outcome (list pointer * Heap * MemoryPoolImpl) :=
  match reqs with
  | [] => Ret ([], h, p)
  | bytes :: rest =>
      '(q, h1, p1) <- MemoryPool_allocate bytes h p;
      '(qs, h2, p2) <- allocate_all rest h1 p1;
      Ret (q :: qs, h2, p2)
  end.

(** ** States reached by the operations *)

(** The length asked of [new] and the chunk built from its result. *)
Definition expand_len (bytes : Z) : Z := Z.max (slot_count bytes) chunksize.

Definition fresh_chunk (bytes : Z) (h : Heap) : Chunk :=
  {| ptr := Ptr (length (blocks h)) 0; wmark := 0; size := expand_len bytes |}.

Definition heap_after_new (len : Z) (h : Heap) : Heap :=
  {| blocks := blocks h ++ [len]; avail := avail h - len |}.

Definition pool_after_expand (bytes : Z) (h : Heap) (p : MemoryPoolImpl)
  : MemoryPoolImpl :=
  {| m_chunks := m_chunks p ++ [fresh_chunk bytes h];
     m_index := vector_size (m_chunks p);
     m_can_expand := m_can_expand p |}.

(** The pool once the mark of its current chunk [c] has moved by [n]. *)
Definition pool_after_bump (n : Z) (c : Chunk) (p : MemoryPoolImpl)
  : MemoryPoolImpl :=
  {| m_chunks := <[Z.to_nat (m_index p) :=
                     {| ptr := ptr c; wmark := wmark c + n; size := size c |}]>
                 (m_chunks p);
     m_index := m_index p;
     m_can_expand := m_can_expand p |}.

(** The pool after a growing allocation. *)
Definition pool_after_grow (bytes : Z) (h : Heap) (p : MemoryPoolImpl)
  : MemoryPoolImpl :=
  pool_after_bump (slot_count bytes) (fresh_chunk bytes h)
                  (pool_after_expand bytes h p).

(** A chunk owns a live array of [size] elements, its mark is inside it. *)
Definition chunk_ok (h : Heap) (c : Chunk) : Prop :=
  exists b : nat,
    ptr c = Ptr b 0 /\ blocks h !! b = Some (size c) /\
    0 <= wmark c <= size c /\ size c < 2 ^ 61.

Definition chunks_wf (h : Heap) (v : list Chunk) : Prop :=
  (forall (i : nat) c, v !! i = Some c -> chunk_ok h c) /\
  (forall (i j : nat) ci cj,
      v !! i = Some ci -> v !! j = Some cj -> ptr ci = ptr cj -> i = j).

Definition pool_wf (h : Heap) (p : MemoryPoolImpl) : Prop :=
  0 <= m_index p < vector_size (m_chunks p) /\ chunks_wf h (m_chunks p).

(** ** Returned regions *)

(** A request rounded up to whole words, as an integer (no wrap-around). *)
Definition round_up_word (bytes : Z) : Z :=
  sizeof_uint64 * ((bytes + sizeof_uint64 - 1) / sizeof_uint64).

(** Bytes [r_start .. r_start + r_len - 1] of the array [r_block]. *)
Record Region : Type := {
  r_block : nat;
  r_start : Z;
  r_len : Z
}.

(** The region a caller owns after [allocate(bytes)] returned [q]. *)
Definition region_of (q : pointer) (bytes : Z) : option Region :=
  match q with
  | nullptr => None
  | Ptr b off =>
      Some {| r_block := b; r_start := sizeof_uint64 * off;
              r_len := round_up_word bytes |}
  end.

Definition in_region (r : Region) (b : nat) (x : Z) : Prop :=
  b = r_block r /\ r_start r <= x < r_start r + r_len r.

(** The slots a successful call hands out, as a byte region. *)
Definition slot_region (b : nat) (off n : Z) : Region :=
  {| r_block := b; r_start := sizeof_uint64 * off; r_len := sizeof_uint64 * n |}.

(** Two regions overlap when they share a byte. *)
Definition overlap (r1 r2 : Region) : Prop :=
  exists b x, in_region r1 b x /\ in_region r2 b x.

(** The regions of the successful calls of a run, in call order. *)
Fixpoint regions (qs : list pointer) (reqs : list Z) : list Region :=
  match qs, reqs with
  | q :: qs', bytes :: reqs' =>
      match region_of q bytes with
      | Some r => r :: regions qs' reqs'
      | None => regions qs' reqs'
      end
  | _, _ => []
  end.

Fixpoint pairwise_disjoint (l : list Region) : Prop :=
  match l with
  | [] => True
  | r :: l' => Forall (fun r' => ~ overlap r r') l' /\ pairwise_disjoint l'
  end.

(** A region lying under the water mark of one of the chunks. *)
Definition below_mark (p : MemoryPoolImpl) (r : Region) : Prop :=
  exists (i : nat) c,
    m_chunks p !! i = Some c /\ ptr c = Ptr (r_block r) 0 /\
    0 <= r_start r /\ r_start r + r_len r <= sizeof_uint64 * wmark c.

(** The machine address of a pointer when array [b] starts at [base b]. *)
Definition address (base : nat -> Z) (q : pointer) : Z :=
  match q with
  | nullptr => 0
  | Ptr b off => base b + sizeof_uint64 * off
  end.

Definition aligned8 (a : Z) : Prop := a mod 8 = 0.

(** Water marks never move back, and chunks stay where they are. *)
Definition marks_monotone (p p' : MemoryPoolImpl) : Prop :=
  forall (i : nat) c,
    m_chunks p !! i = Some c ->
    exists c', m_chunks p' !! i = Some c' /\
               ptr c' = ptr c /\ size c' = size c /\ wmark c <= wmark c'.

(** The invariant of the data model, for every chunk of the arena. *)
Definition chunk_invariant (p : MemoryPoolImpl) : Prop :=
  forall (i : nat) c, m_chunks p !! i = Some c -> 0 <= wmark c <= size c.

(** The states a pool goes through: built by the constructor, then changed
    by [expand] and [allocate] only. *)
Inductive reachable : Heap -> MemoryPoolImpl -> Prop :=
| reach_ctor cfg h0 h p :
    MemoryPoolImpl_ctor cfg h0 = Ret (h, p) -> reachable h p
| reach_expand bytes h p h' p' :
    reachable h p -> expand bytes h p = Ret (h', p') -> reachable h' p'
| reach_allocate bytes ce h p q h' p' :
    reachable h p -> allocate bytes ce h p = Ret (q, h', p') ->
    reachable h' p'.

(** ** Concrete pools *)

(** An empty free store able to provide [2^32] elements. *)
Definition heap0 : Heap := {| blocks := []; avail := 2 ^ 32 |}.

(** A pool of one chunk: array [b] of [cap] slots with the mark at [w]. *)
Definition single_chunk_pool (b : nat) (w cap : Z) (ce : bool) : MemoryPoolImpl :=
  {| m_chunks := [{| ptr := Ptr b 0; wmark := w; size := cap |}];
     m_index := 0;
     m_can_expand := ce |}.

(** Scenario A: [pool_size = 128], [can_expand = false]. *)
Definition config_A : Config := {| pool_size := 128; can_expand := false |}.

(** ** The sentences of the specification that the code does not follow *)

(** Growth sizing as the specification words it: for every byte count the
    new chunk has [max (ceil (bytes / 8)) D] slots, [D] being the default
    chunk size in slots. *)
Definition expand_sizing_claim (D : Z) : Prop :=
  forall bytes h p h' p',
    0 <= bytes < 2 ^ 64 ->
    expand bytes h p = Ret (h', p') ->
    exists c, m_chunks p' = m_chunks p ++ [c] /\
              size c = Z.max ((bytes + 7) / 8) D.

(** Exhaustion as the specification words it: once a request has been
    refused, every later request is refused too. *)
Definition exhaustion_claim (h : Heap) (p : MemoryPoolImpl) : Prop :=
  forall bytes,
    0 <= bytes < 2 ^ 64 ->
    allocate bytes false h p = Ret (nullptr, h, p) ->
    forall bytes', 0 <= bytes' < 2 ^ 64 ->
                   allocate bytes' false h p = Ret (nullptr, h, p).

(** Scenario A as the specification words it: two calls succeed and the
    third returns null. *)
Definition scenario_A_claim (h0 : Heap) : Prop :=
  exists h p q1 q2 h' p',
    MemoryPool_ctor config_A h0 = Ret (h, p) /\
    allocate_all [64; 64; 8] h p = Ret ([q1; q2; nullptr], h', p') /\
    q1 <> nullptr /\ q2 <> nullptr.

(** Scenario B as the specification words it: the call grows the arena to
    two chunks. *)
Definition scenario_B_claim (h0 : Heap) : Prop :=
  exists h p q h' p',
    MemoryPool_ctor default_config h0 = Ret (h, p) /\
    MemoryPool_allocate (70 * 1024) h p = Ret (q, h', p') /\
    q <> nullptr /\ length (m_chunks p') = 2%nat.

(** The sum of a list of sizes. *)
Definition total (l : list Z) : Z := foldr Z.add 0 l.

(** No spurious growth as the specification words it: requests whose byte
    sizes add up to at most the initial pool size are all served from the
    first chunk. *)
Definition no_spurious_growth_claim (cfg : Config) (h0 : Heap) (reqs : list Z)
  : Prop :=
  forall h p,
    MemoryPool_ctor cfg h0 = Ret (h, p) ->
    total reqs <= pool_size cfg ->
    exists qs h' p',
      allocate_all reqs h p = Ret (qs, h', p') /\
      length (m_chunks p') = 1%nat /\
      Forall (fun q => q <> nullptr) qs /\
      (forall base, (forall b, aligned8 (base b)) ->
                    Forall (fun q => aligned8 (address base q)) qs) /\
      pairwise_disjoint (regions qs reqs).

(** Disjointness as the specification words it: the regions of the
    successful calls of any run of requests of positive size. *)
Definition disjointness_claim (h : Heap) (p : MemoryPoolImpl) (reqs : list Z)
  : Prop :=
  Forall (fun bytes => 0 < bytes < 2 ^ 64) reqs ->
  forall qs h' p',
    allocate_all reqs h p = Ret (qs, h', p') ->
    pairwise_disjoint (regions qs reqs).

(** ** Teardown and the locked entry point *)

(** [delete[] p], with the arrays already released in [freed]: releasing
    the null pointer does nothing; releasing anything but the start of an
    array of the free store that is still live is undefined behaviour. *)
Definition delete_array (p : pointer) (h : Heap) (freed : list nat)
  : outcome (list nat) :=
  match p with
  | nullptr => Ret freed
  | Ptr b off =>
      if (off =? 0) && bool_decide (b < length (blocks h))%nat
         && negb (bool_decide (elem_of b freed))
      then Ret (b :: freed)
      else Undef
  end.

(** The loop [for (auto &c : m_chunks) delete[] c.ptr;] *)
Fixpoint delete_chunks (v : list Chunk) (h : Heap) (freed : list nat)
  : outcome (list nat) :=
  match v with
  | [] => Ret freed
  | c :: v' =>
      freed' <- delete_array (ptr c) h freed;
      delete_chunks v' h freed'
  end.

(** [~MemoryPoolImpl()]: release every buffer, then [m_chunks.clear()]. *)
Definition MemoryPoolImpl_dtor (h : Heap) (freed : list nat) (p : MemoryPoolImpl)
  : outcome (list nat * MemoryPoolImpl) :=
  freed' <- delete_chunks (m_chunks p) h freed;
  Ret (freed', {| m_chunks := [];
                  m_index := m_index p;
                  m_can_expand := m_can_expand p |}).

(** The array a chunk owns. *)
Definition chunk_block (c : Chunk) : option nat :=
  match ptr c with
  | Ptr b _ => Some b
  | nullptr => None
  end.

(** The calls [MemoryPool::allocate] makes on [m_lock]. *)
Inductive lock_event : Type :=
| WLock
| Unlock.

(** [void* MemoryPool::allocate(size_t bytes)] with its calls on the lock
    recorded in order: [wlock()], the allocation, [unlock()].  Nothing
    catches an exception of the allocation, which therefore leaves the
    function before [unlock()] is reached. *)
Definition MemoryPool_allocate_locked (bytes : Z) (h : Heap) (p : MemoryPoolImpl)
  : list lock_event * outcome (pointer * Heap * MemoryPoolImpl) :=
  let events := [WLock] in
  match allocate bytes (m_can_expand p) h p with
  | Ret r => (events ++ [Unlock], Ret r)
  | Throw => (events, Throw)
  | Undef => (events, Undef)
  end.

(** ** [TreeFormatter.cpp]: padding of table cells *)

(** An output stream is the text written to it so far; [os << s] appends. *)
Definition put (os s : string) : string := os +:+ s.

(** [str.size()] as a [size_t] *)
Definition string_size (s : string) : Z := Z.of_nat (String.length s).

(** [const char whitespace[120+1]]: three rows of forty blanks. *)
Definition whitespace : string :=
  "                                        " +:+
  "                                        " +:+
  "                                        ".

(** [s + k] for a C string [s] and an offset [k] within it: the characters
    of [s] from position [k] to its end. *)
Definition c_str_from (s : string) (k : Z) : string :=
  String.substring (Z.to_nat k) (String.length s - Z.to_nat k) s.

(** [n] blanks *)
Fixpoint blanks (n : nat) : string :=
  match n with
  | O => EmptyString
  | S n' => String Ascii.Space (blanks n')
  end.

(** [pad_right(os, str, width)]:
    [os << str << whitespace+(120-std::min<std::size_t>(120, 1+width-str.size()))] *)
Definition pad_right (os str : string) (width : Z) : string :=
  put (put os str)
      (c_str_from whitespace
         (SizeT.sub 120
            (Z.min 120 (SizeT.sub (SizeT.add 1 width) (string_size str))))).

(** [pad_left(os, str, width)]:
    [os << whitespace+(120 - std::min<std::size_t>(120, width-str.size()))
        << str << ' '] *)
Definition pad_left (os str : string) (width : Z) : string :=
  put (put (put os
              (c_str_from whitespace
                 (SizeT.sub 120
                    (Z.min 120 (SizeT.sub width (string_size str))))))
           str)
      " ".

(** ** [TreeFormatter.cpp]: printing the tree *)

(** [cali_attr_type], declared outside this file: the four enumerators
    that [recursive_print_nodes] names; every other enumerator is
    [CALI_TYPE_OTHER]. *)
Inductive cali_attr_type : Type :=
| CALI_TYPE_INT
| CALI_TYPE_UINT
| CALI_TYPE_DOUBLE
| CALI_TYPE_ADDR
| CALI_TYPE_OTHER.

#[global] Instance cali_attr_type_eq_dec : EqDecision cali_attr_type.
Proof. solve_decision. Defined.

(** What the formatter uses of class [Attribute], declared outside this
    file: comparison, [Attribute::invalid], [name()], [type()] and
    [is_hidden()]. *)
Class AttributeOps (Attribute : Type) : Type := {
  Attribute_eq_dec :: EqDecision Attribute;
  Attribute_invalid : Attribute;
  Attribute_name : Attribute -> string;
  Attribute_type : Attribute -> cali_attr_type;
  Attribute_is_hidden : Attribute -> bool
}.

(** A [SnapshotTreeNode] as the formatter reads it: the text of
    [label_value().to_string()], the entries of [attributes()] with each
    value already turned into text by [to_string()], and the children in
    the order of [first_child()] and [next_sibling()]. *)
#[local] Unset Elimination Schemes.
Inductive SnapshotTreeNode (Attribute : Type) : Type :=
| TreeNode (label : string) (attrs : list (Attribute * string))
           (kids : list (SnapshotTreeNode Attribute)).
#[local] Set Elimination Schemes.
Arguments TreeNode {Attribute} label attrs kids.

Definition label_value {Attribute} (node : SnapshotTreeNode Attribute) : string :=
  match node with TreeNode label _ _ => label end.

Definition node_attributes {Attribute} (node : SnapshotTreeNode Attribute)
  : list (Attribute * string) :=
  match node with TreeNode _ attrs _ => attrs end.

Definition children {Attribute} (node : SnapshotTreeNode Attribute)
  : list (SnapshotTreeNode Attribute) :=
  match node with TreeNode _ _ kids => kids end.

(** [int] is 32 bits wide: a [size_t] converted to [int] keeps its low 32
    bits as a two's complement number, an [int] converted to [size_t] is
    taken modulo [2^64]. *)
Module Int.
Definition of_size_t (z : Z) : Z := (z + 2 ^ 31) mod 2 ^ 32 - 2 ^ 31.
Definition to_size_t (i : Z) : Z := SizeT.wrap i.
End Int.

(** [QuerySpec::AttributeSelection], declared outside this file: the four
    selection modes of the [switch] in [flush] and the listed names. *)
Module QuerySpec.
Inductive SelectionType : Type := Default | All | List | None.
Record AttributeSelection : Type := {
  selection : SelectionType;
  names : list string
}.
End QuerySpec.

(** The members of [TreeFormatterImpl] that [flush] and
    [recursive_print_nodes] read: the root of [m_tree] (absent when
    [root()] is null), the column selection, the [std::map] of column
    widths in its iteration order, and the width of the path column. *)
Record TreeFormatterImpl (Attribute : Type) : Type := {
  m_tree_root : option (SnapshotTreeNode Attribute);
  m_attribute_columns : QuerySpec.AttributeSelection;
  m_attribute_column_widths : list (Attribute * Z);
  m_path_column_width : Z
}.
Arguments m_tree_root {Attribute} _.
Arguments m_attribute_columns {Attribute} _.
Arguments m_attribute_column_widths {Attribute} _.
Arguments m_path_column_width {Attribute} _.

(** [std::endl] *)
Definition endl : string := String (Ascii.ascii_of_nat 10) EmptyString.

(** [node->attributes().find(a)], then [it->second.to_string()] *)
Fixpoint find_attribute `{AttributeOps Attribute}
    (attrs : list (Attribute * string)) (a : Attribute) : option string :=
  match attrs with
  | [] => None
  | (k, v) :: attrs' =>
      if decide (k = a) then Some v else find_attribute attrs' a
  end.

(** [m_attribute_column_widths[a]]: the width stored for [a], and 0 when
    there is none (the entry that [operator[]] then creates does not change
    what this call prints). *)
Fixpoint column_width `{AttributeOps Attribute}
    (widths : list (Attribute * Z)) (a : Attribute) : Z :=
  match widths with
  | [] => 0
  | (k, w) :: widths' =>
      if decide (k = a) then w else column_width widths' a
  end.

(** The body of the loop over [attributes] in [recursive_print_nodes]. *)
Definition print_cell `{AttributeOps Attribute}
    (this : TreeFormatterImpl Attribute) (node : SnapshotTreeNode Attribute)
    (os : string) (a : Attribute) : string :=
  let str := match find_attribute (node_attributes node) a with
             | Some v => v
             | None => EmptyString
             end in
  let t := Attribute_type a in
  let align_right := bool_decide (t = CALI_TYPE_INT)
                     || bool_decide (t = CALI_TYPE_UINT)
                     || bool_decide (t = CALI_TYPE_DOUBLE)
                     || bool_decide (t = CALI_TYPE_ADDR) in
  if align_right
  then pad_left os str (Int.to_size_t (column_width (m_attribute_column_widths this) a))
  else pad_right os str (Int.to_size_t (column_width (m_attribute_column_widths this) a)).

(** The first half of [recursive_print_nodes], "print this node": the
    indented label, one cell per attribute, the end of line.  [level]
    starts at 0 in [flush] and only grows, so [2*level] is a valid count
    for [assign]. *)
Definition print_node `{AttributeOps Attribute}
    (this : TreeFormatterImpl Attribute) (node : SnapshotTreeNode Attribute)
    (level : Z) (attributes : list Attribute) (os : string) : string :=
  let path_str := blanks (Z.to_nat (2 * level)) +:+ label_value node in
  let os := pad_right os path_str (Int.to_size_t (m_path_column_width this)) in
  let os := foldl (print_cell this node) os attributes in
  put os endl.

(** [void recursive_print_nodes(node, level, attributes, os)] *)
Fixpoint recursive_print_nodes `{AttributeOps Attribute}
    (this : TreeFormatterImpl Attribute) (node : SnapshotTreeNode Attribute)
    (level : Z) (attributes : list Attribute) (os : string) {struct node}
  : string :=
  let os := print_node this node level attributes os in
  (fix siblings (l : list (SnapshotTreeNode Attribute)) (os : string) : string :=
     match l with
     | [] => os
     | child :: l' =>
         siblings l' (recursive_print_nodes this child (level + 1) attributes os)
     end) (children node) os.

(** The [switch] of [flush]: the attribute columns in printing order, and
    what is written to [std::cerr] on the way. *)
Definition select_attributes `{AttributeOps Attribute}
    (db : string -> Attribute) (this : TreeFormatterImpl Attribute)
    (cerr : string) : list Attribute * string :=
  match QuerySpec.selection (m_attribute_columns this) with
  | QuerySpec.Default =>
      (foldl (fun attributes (p : Attribute * Z) =>
                if Attribute_is_hidden p.1 then attributes
                else if String.eqb (String.substring 0 5 (Attribute_name p.1)) "cali."
                     then attributes
                     else attributes ++ [p.1])
             [] (m_attribute_column_widths this),
       cerr)
  | QuerySpec.All =>
      (foldl (fun attributes (p : Attribute * Z) => attributes ++ [p.1])
             [] (m_attribute_column_widths this),
       cerr)
  | QuerySpec.List =>
      foldl (fun (acc : list Attribute * string) (s : string) =>
               let attr := db s in
               if decide (attr = Attribute_invalid)
               then (acc.1,
                     put (put (put (put (put acc.2
                       "cali-query: TreeFormatter: Attribute ")
                       (String Ascii.DoubleQuote EmptyString)) s)
                       (String Ascii.DoubleQuote " not found.")) endl)
               else (acc.1 ++ [attr], acc.2))
            ([], cerr) (QuerySpec.names (m_attribute_columns this))
  | QuerySpec.None => ([], cerr)
  end.

(** [void flush(db, os)]; the result is the text on [os] and on
    [std::cerr]. *)
Definition flush `{AttributeOps Attribute}
    (db : string -> Attribute) (this : TreeFormatterImpl Attribute)
    (os cerr : string) : string * string :=
  let path_column_width :=
    Int.of_size_t (Z.max (Int.to_size_t (m_path_column_width this)) 4) in
  let this := {| m_tree_root := m_tree_root this;
                 m_attribute_columns := m_attribute_columns this;
                 m_attribute_column_widths := m_attribute_column_widths this;
                 m_path_column_width := path_column_width |} in
  let (attributes, cerr) := select_attributes db this cerr in
  let os := pad_right os "Path" (Int.to_size_t (m_path_column_width this)) in
  let os := foldl (fun os a =>
                     pad_right os (Attribute_name a)
                       (Int.to_size_t (column_width (m_attribute_column_widths this) a)))
                  os attributes in
  let os := put os endl in
  match m_tree_root this with
  | Some node =>
      (foldl (fun os child => recursive_print_nodes this child 0 attributes os)
             os (children node),
       cerr)
  | None => (os, cerr)
  end.

(** The nodes of a subtree with their levels, in the order they are
    printed. *)
Fixpoint preorder {Attribute} (node : SnapshotTreeNode Attribute) (level : Z)
  : list (Z * SnapshotTreeNode Attribute) :=
  match node with
  | TreeNode _ _ kids =>
      (level, node) :: flat_map (fun child => preorder child (level + 1)) kids
  end.

(** Lines written one after the other. *)
Definition text (lines : list string) : string := foldr String.append EmptyString lines.

(** The width of a table line without its end of line: the path column and
    the attribute columns, each followed by one blank. *)
Definition line_width `{AttributeOps Attribute}
    (this : TreeFormatterImpl Attribute) (attributes : list Attribute) : Z :=
  (m_path_column_width this + 1)
  + foldr (fun a acc => column_width (m_attribute_column_widths this) a + 1 + acc)
          0 attributes.

(** A cell text that its column can hold, for each alignment. *)
Definition fits_left_aligned (str : string) (width : Z) : Prop :=
  string_size str <= width + 1 <= string_size str + 120.

Definition fits_right_aligned (str : string) (width : Z) : Prop :=
  string_size str <= width <= string_size str + 120.

Definition right_aligned `{AttributeOps Attribute} (a : Attribute) : bool :=
  bool_decide (Attribute_type a = CALI_TYPE_INT)
  || bool_decide (Attribute_type a = CALI_TYPE_UINT)
  || bool_decide (Attribute_type a = CALI_TYPE_DOUBLE)
  || bool_decide (Attribute_type a = CALI_TYPE_ADDR).

(** Every cell of the line of [node] at [level] fits its column. *)
Definition node_fits `{AttributeOps Attribute}
    (this : TreeFormatterImpl Attribute) (attributes : list Attribute)
    (entry : Z * SnapshotTreeNode Attribute) : Prop :=
  0 <= entry.1 /\
  fits_left_aligned (blanks (Z.to_nat (2 * entry.1)) +:+ label_value entry.2)
                    (m_path_column_width this) /\
  Forall (fun a =>
            let str := match find_attribute (node_attributes entry.2) a with
                       | Some v => v
                       | None => EmptyString
                       end in
            let w := column_width (m_attribute_column_widths this) a in
            0 <= w < 2 ^ 31 /\
            if right_aligned a then fits_right_aligned str w
            else fits_left_aligned str w)
         attributes.

(** The line of one node, and the header line, on their own. *)
Definition node_line `{AttributeOps Attribute}
    (this : TreeFormatterImpl Attribute) (attributes : list Attribute)
    (entry : Z * SnapshotTreeNode Attribute) : string :=
  print_node this entry.2 entry.1 attributes EmptyString.

Definition header_line `{AttributeOps Attribute}
    (this : TreeFormatterImpl Attribute) (attributes : list Attribute) : string :=
  put (foldl (fun os a =>
                pad_right os (Attribute_name a)
                  (Int.to_size_t (column_width (m_attribute_column_widths this) a)))
             (pad_right EmptyString "Path" (Int.to_size_t (m_path_column_width this)))
             attributes)
      endl.

(** The formatter once [flush] has raised the path column to the width of
    its title. *)
Definition with_title_width {Attribute} (this : TreeFormatterImpl Attribute)
  : TreeFormatterImpl Attribute :=
  {| m_tree_root := m_tree_root this;
     m_attribute_columns := m_attribute_columns this;
     m_attribute_column_widths := m_attribute_column_widths this;
     m_path_column_width :=
       Int.of_size_t (Z.max (Int.to_size_t (m_path_column_width this)) 4) |}.

(** The nodes [flush] prints: everything below the root, the root's
    children at level 0. *)
Definition printed_nodes {Attribute} (this : TreeFormatterImpl Attribute)
  : list (Z * SnapshotTreeNode Attribute) :=
  match m_tree_root this with
  | Some node => flat_map (fun child => preorder child 0) (children node)
  | None => []
  end.

(** The complaint of [flush] about a listed name that [db] does not know. *)
Definition not_found_message (s : string) : string :=
  "cali-query: TreeFormatter: Attribute " +:+ String Ascii.DoubleQuote EmptyString +:+ s
  +:+ String Ascii.DoubleQuote " not found." +:+ endl.

(** ** A small table, for the examples *)

(** An attribute given by its name, type and hidden flag. *)
Record SampleAttribute : Type := {
  sample_name : string;
  sample_type : cali_attr_type;
  sample_hidden : bool
}.

#[global] Instance SampleAttribute_eq_dec : EqDecision SampleAttribute.
Proof. solve_decision. Defined.

#[global] Instance SampleAttribute_ops : AttributeOps SampleAttribute := {|
  Attribute_eq_dec := SampleAttribute_eq_dec;
  Attribute_invalid :=
    {| sample_name := EmptyString; sample_type := CALI_TYPE_OTHER; sample_hidden := false |};
  Attribute_name := sample_name;
  Attribute_type := sample_type;
  Attribute_is_hidden := sample_hidden
|}.

Definition attr_time : SampleAttribute :=
  {| sample_name := "time"; sample_type := CALI_TYPE_DOUBLE; sample_hidden := false |}.

Definition attr_kind : SampleAttribute :=
  {| sample_name := "kind"; sample_type := CALI_TYPE_OTHER; sample_hidden := false |}.

Definition attr_id : SampleAttribute :=
  {| sample_name := "cali.id"; sample_type := CALI_TYPE_UINT; sample_hidden := false |}.

Definition sample_db (s : string) : SampleAttribute :=
  if String.eqb s "time" then attr_time
  else if String.eqb s "kind" then attr_kind
  else Attribute_invalid.

(** A root with the path [main/foo]. *)
Definition sample_subtree : SnapshotTreeNode SampleAttribute :=
  TreeNode "main" [(attr_time, "12.5"); (attr_kind, "loop")]
    [TreeNode "foo" [(attr_time, "3.25")] []].

Definition sample_formatter : TreeFormatterImpl SampleAttribute :=
  {| m_tree_root := Some (TreeNode EmptyString [] [sample_subtree]);
     m_attribute_columns :=
       {| QuerySpec.selection := QuerySpec.Default; QuerySpec.names := [] |};
     m_attribute_column_widths := [(attr_id, 7); (attr_kind, 4); (attr_time, 4)];
     m_path_column_width := 7 |}.

(** ** [TreeFormatter.cpp]: the path keys *)

(** The body of the loop of [get_path_keys] at index [i], on the local copy
    [path_keys] and the member [m_path_keys]: a key that is still invalid is
    looked up by its name and, if [db] knows it, stored in both vectors.
    Indexing a vector out of range is undefined behaviour. *)
Definition get_path_keys_step `{AttributeOps Attribute}
    (db : string -> Attribute) (m_path_key_names : list string)
    (st : list Attribute * list Attribute) (i : nat)
  : outcome (list Attribute * list Attribute) :=
  let (path_keys, m_path_keys) := st in
  match path_keys !! i with
  | None => Undef
  | Some key =>
      if decide (key = Attribute_invalid) then
        match m_path_key_names !! i with
        | None => Undef
        | Some name =>
            let attr := db name in
            if decide (attr = Attribute_invalid) then Ret (path_keys, m_path_keys)
            else if decide (i < length m_path_keys)%nat
                 then Ret (<[i := attr]> path_keys, <[i := attr]> m_path_keys)
                 else Undef
        end
      else Ret (path_keys, m_path_keys)
  end.

(** [for (i = ...; i < path_keys.size(); ++i)], with [count] indices left *)
Fixpoint get_path_keys_loop `{AttributeOps Attribute}
    (db : string -> Attribute) (m_path_key_names : list string)
    (i count : nat) (st : list Attribute * list Attribute)
  : outcome (list Attribute * list Attribute) :=
  match count with
  | O => Ret st
  | S count' =>
      st' <- get_path_keys_step db m_path_key_names st i;
      get_path_keys_loop db m_path_key_names (S i) count' st'
  end.

(** [std::vector<Attribute> get_path_keys(db)]: the returned vector and
    the member [m_path_keys] afterwards. *)
Definition get_path_keys `{AttributeOps Attribute}
    (db : string -> Attribute) (m_path_key_names : list string)
    (m_path_keys : list Attribute)
  : outcome (list Attribute * list Attribute) :=
  let path_keys := m_path_keys in
  get_path_keys_loop db m_path_key_names 0 (length path_keys)
                     (path_keys, m_path_keys).

(** A key after the lookup: what it was if it was valid, what [db] says
    for its name otherwise. *)
Definition resolve_key `{AttributeOps Attribute}
    (db : string -> Attribute) (key : Attribute) (name : string) : Attribute :=
  if decide (key = Attribute_invalid) then db name else key.

(** ** Arithmetic of the slot count *)

Lemma wrap_range z : 0 <= SizeT.wrap z < SizeT.modulus.
Proof. unfold SizeT.wrap, SizeT.modulus. apply Z.mod_pos_bound. lia. Qed.

Lemma wrap_small z : 0 <= z < SizeT.modulus -> SizeT.wrap z = z.
Proof. intros H. unfold SizeT.wrap. apply Z.mod_small. exact H. Qed.

Lemma slot_count_bounds bytes : 0 <= slot_count bytes < 2 ^ 61.
Proof.
  unfold slot_count, SizeT.sub, sizeof_uint64.
  pose proof (wrap_range (SizeT.add bytes 8 - 1)) as H.
  unfold SizeT.modulus in H.
  change (2 ^ 64) with (8 * 2 ^ 61) in H.
  split.
  - apply Z.div_pos; lia.
  - apply Z.div_lt_upper_bound; lia.
Qed.

(** The two wrapping steps amount to one: [(bytes + 7) mod 2^64]. *)
Lemma slot_count_eq bytes : slot_count bytes = SizeT.wrap (bytes + 7) / 8.
Proof.
  unfold slot_count, SizeT.sub, SizeT.add, SizeT.wrap, sizeof_uint64.
  rewrite Zminus_mod_idemp_l. do 2 f_equal. lia.
Qed.

(** Below the wrap-around the expression is the rounded-up quotient. *)
Lemma slot_count_exact bytes :
  0 <= bytes <= 2 ^ 64 - 8 -> slot_count bytes = (bytes + 7) / 8.
Proof.
  intros H. rewrite slot_count_eq.
  rewrite wrap_small by (unfold SizeT.modulus; lia).
  reflexivity.
Qed.

(** Above it, the sum wraps and no slot is asked for. *)
Lemma slot_count_wrapped bytes :
  2 ^ 64 - 8 < bytes < 2 ^ 64 -> slot_count bytes = 0.
Proof.
  intros H. rewrite slot_count_eq.
  assert (Hw : SizeT.wrap (bytes + 7) = bytes + 7 - 2 ^ 64).
  { unfold SizeT.wrap, SizeT.modulus.
    symmetry. apply (Z.mod_unique_pos _ _ 1); lia. }
  rewrite Hw. apply Z.div_small. lia.
Qed.

(** [8 * slot_count bytes] is [bytes] rounded up to a whole word. *)
Lemma slot_count_covers bytes :
  0 <= bytes <= 2 ^ 64 - 8 ->
  bytes <= 8 * slot_count bytes < bytes + 8.
Proof.
  intros H. rewrite slot_count_exact by exact H.
  pose proof (Z.div_mod (bytes + 7) 8 ltac:(lia)) as Hd.
  pose proof (Z.mod_pos_bound (bytes + 7) 8 ltac:(lia)) as Hm.
  lia.
Qed.

(** ** What [expand] does *)

Lemma vector_max_size_lt : vector_max_size < SizeT.modulus.
Proof. reflexivity. Qed.

Lemma vector_size_app v c : vector_size (v ++ [c]) = vector_size v + 1.
Proof. unfold vector_size. rewrite length_app. simpl. lia. Qed.

Lemma vector_size_nonneg v : 0 <= vector_size v.
Proof. unfold vector_size. lia. Qed.

(** [expand] returns exactly when the free store has room and the vector is
    not full, and then in one way only. *)
Lemma expand_Ret bytes h p h' p' :
  expand bytes h p = Ret (h', p') <->
  expand_len bytes <= avail h /\
  vector_size (m_chunks p) < vector_max_size /\
  h' = heap_after_new (expand_len bytes) h /\
  p' = pool_after_expand bytes h p.
Proof.
  unfold expand, new_uint64_array, vector_push_back.
  fold (expand_len bytes).
  destruct (Z.leb_spec (expand_len bytes) (avail h)) as [Ha | Ha]; simpl.
  2: { split; [discriminate | lia]. }
  destruct (Z.ltb_spec (vector_size (m_chunks p)) vector_max_size) as [Hv | Hv];
    simpl.
  2: { split; [discriminate | lia]. }
  assert (Hi : SizeT.sub
                 (vector_size
                    (m_chunks p ++
                     [{| ptr := Ptr (length (blocks h)) 0; wmark := 0;
                         size := expand_len bytes |}])) 1
               = vector_size (m_chunks p)).
  { rewrite vector_size_app. unfold SizeT.sub.
    replace (vector_size (m_chunks p) + 1 - 1) with (vector_size (m_chunks p))
      by lia.
    apply wrap_small.
    pose proof (vector_size_nonneg (m_chunks p)).
    pose proof vector_max_size_lt. lia. }
  rewrite Hi.
  unfold pool_after_expand, fresh_chunk, heap_after_new.
  split.
  - intros H. inversion H; subst. auto.
  - intros (_ & _ & -> & ->). reflexivity.
Qed.

Lemma expand_outcome bytes h p :
  expand bytes h p =
    if (expand_len bytes <=? avail h)
       && (vector_size (m_chunks p) <? vector_max_size)
    then Ret (heap_after_new (expand_len bytes) h, pool_after_expand bytes h p)
    else Throw.
Proof.
  destruct (expand bytes h p) as [[h' p'] | | ] eqn:E.
  - apply expand_Ret in E as (Ha & Hv & -> & ->).
    apply Z.leb_le in Ha. apply Z.ltb_lt in Hv. rewrite Ha, Hv. reflexivity.
  - unfold expand, new_uint64_array, vector_push_back in *.
    fold (expand_len bytes) in *.
    destruct (expand_len bytes <=? avail h); simpl in *; [| reflexivity].
    destruct (vector_size (m_chunks p) <? vector_max_size); simpl in *;
      [discriminate | reflexivity].
  - unfold expand, new_uint64_array, vector_push_back in E.
    destruct (_ <=? _); simpl in E; [| discriminate].
    destruct (_ <? _); simpl in E; discriminate.
Qed.

Lemma expand_len_bounds bytes : chunksize <= expand_len bytes < 2 ^ 61.
Proof.
  unfold expand_len. pose proof (slot_count_bounds bytes).
  assert (chunksize < 2 ^ 61) by reflexivity. lia.
Qed.

Lemma expand_len_fits bytes : slot_count bytes <= expand_len bytes.
Proof. unfold expand_len. lia. Qed.

(** ** Well-formed pool states *)

Lemma chunk_ok_heap_after_new len h c :
  chunk_ok h c -> chunk_ok (heap_after_new len h) c.
Proof.
  intros (b & Hp & Hb & Hw & Hs). exists b. repeat split; try tauto.
  simpl. apply lookup_app_l_Some. exact Hb.
Qed.

Lemma chunks_wf_expand bytes h v :
  chunks_wf h v ->
  chunks_wf (heap_after_new (expand_len bytes) h) (v ++ [fresh_chunk bytes h]).
Proof.
  intros [Hok Hdis]. pose proof (expand_len_bounds bytes) as Hlen.
  assert (Hnew : chunk_ok (heap_after_new (expand_len bytes) h)
                          (fresh_chunk bytes h)).
  { assert (0 < chunksize) by reflexivity.
    exists (length (blocks h)). simpl. split; [reflexivity |].
    split; [| lia].
    rewrite lookup_app_r by lia. rewrite Nat.sub_diag. reflexivity. }
  assert (Hold : forall (i : nat) c, v !! i = Some c ->
                   ptr c <> ptr (fresh_chunk bytes h)).
  { intros i c Hc Heq. destruct (Hok i c Hc) as (b & Hp & Hb & _).
    apply lookup_lt_Some in Hb. simpl in Heq. rewrite Hp in Heq.
    inversion Heq. lia. }
  split.
  - intros i c Hc. apply lookup_snoc_Some in Hc as [[_ Hc] | [_ <-]].
    + apply chunk_ok_heap_after_new. eauto.
    + exact Hnew.
  - intros i j ci cj Hi Hj Heq.
    apply lookup_snoc_Some in Hi as [[_ Hi] | [-> <-]];
      apply lookup_snoc_Some in Hj as [[_ Hj] | [-> <-]].
    + eauto.
    + exfalso. eapply Hold; eauto.
    + exfalso. eapply Hold; eauto.
    + reflexivity.
Qed.

Lemma pool_wf_expand bytes h p :
  chunks_wf h (m_chunks p) ->
  pool_wf (heap_after_new (expand_len bytes) h) (pool_after_expand bytes h p).
Proof.
  intros Hwf. split.
  - simpl. rewrite vector_size_app. pose proof (vector_size_nonneg (m_chunks p)).
    lia.
  - simpl. apply chunks_wf_expand. exact Hwf.
Qed.

Lemma chunks_wf_nil h : chunks_wf h [].
Proof. split; intros; discriminate. Qed.

(** ** What [allocate] does *)

Lemma index_not_size (v : list Chunk) (i : Z) c :
  0 <= i -> v !! Z.to_nat i = Some c -> (i =? vector_size v) = false.
Proof.
  intros Hi Hc. apply lookup_lt_Some in Hc. apply Z.eqb_neq.
  unfold vector_size. lia.
Qed.

(** The request fits the current chunk: a plain bump. *)
Lemma allocate_fit bytes ce h p c b o :
  0 <= m_index p ->
  m_chunks p !! Z.to_nat (m_index p) = Some c ->
  ptr c = Ptr b o ->
  0 <= wmark c -> size c < SizeT.modulus ->
  wmark c + slot_count bytes <= size c ->
  allocate bytes ce h p =
    Ret (Ptr b (o + wmark c), h, pool_after_bump (slot_count bytes) c p).
Proof.
  intros Hi Hc Hp Hw Hs Hfit.
  pose proof (slot_count_bounds bytes) as Hn.
  unfold allocate, must_grow, bump, vector_at.
  rewrite (index_not_size _ _ _ Hi Hc), Hc. simpl.
  unfold SizeT.add. rewrite wrap_small by lia.
  destruct (Z.ltb_spec (size c) (wmark c + slot_count bytes)); [lia |].
  unfold pool_after_bump. rewrite Hp. reflexivity.
Qed.

(** The request does not fit and growth is off: null, nothing changes. *)
Lemma allocate_refused bytes h p c :
  0 <= m_index p ->
  m_chunks p !! Z.to_nat (m_index p) = Some c ->
  0 <= wmark c -> wmark c + slot_count bytes < SizeT.modulus ->
  size c < wmark c + slot_count bytes ->
  allocate bytes false h p = Ret (nullptr, h, p).
Proof.
  intros Hi Hc Hw Hs Hno.
  pose proof (slot_count_bounds bytes) as Hn.
  unfold allocate, must_grow, vector_at.
  rewrite (index_not_size _ _ _ Hi Hc), Hc. simpl.
  unfold SizeT.add. rewrite wrap_small by lia.
  destruct (Z.ltb_spec (size c) (wmark c + slot_count bytes)); [| lia].
  reflexivity.
Qed.

(** [bump] right after [expand] takes the first slots of the new chunk. *)
Lemma bump_after_expand bytes h0 h p :
  vector_size (m_chunks p) < vector_max_size ->
  bump (slot_count bytes) h (pool_after_expand bytes h0 p) =
    Ret (Ptr (length (blocks h0)) 0, h,
         pool_after_bump (slot_count bytes) (fresh_chunk bytes h0)
                         (pool_after_expand bytes h0 p)).
Proof.
  intros Hv. pose proof (slot_count_bounds bytes) as Hn.
  unfold bump, vector_at. simpl.
  unfold vector_size. rewrite Nat2Z.id.
  rewrite list_lookup_middle by reflexivity. simpl.
  unfold pool_after_bump. simpl.
  unfold vector_size. rewrite Nat2Z.id.
  unfold SizeT.add. rewrite wrap_small by (unfold SizeT.modulus; lia).
  reflexivity.
Qed.

(** The request does not fit and growth is on: [expand], then bump. *)
Lemma allocate_grow bytes h p c :
  0 <= m_index p ->
  m_chunks p !! Z.to_nat (m_index p) = Some c ->
  0 <= wmark c -> wmark c + slot_count bytes < SizeT.modulus ->
  size c < wmark c + slot_count bytes ->
  allocate bytes true h p =
    if (expand_len bytes <=? avail h)
       && (vector_size (m_chunks p) <? vector_max_size)
    then Ret (Ptr (length (blocks h)) 0,
              heap_after_new (expand_len bytes) h,
              pool_after_grow bytes h p)
    else Throw.
Proof.
  intros Hi Hc Hw Hs Hno.
  pose proof (slot_count_bounds bytes) as Hn.
  unfold allocate, must_grow, vector_at.
  rewrite (index_not_size _ _ _ Hi Hc), Hc. simpl.
  unfold SizeT.add. rewrite wrap_small by lia.
  destruct (Z.ltb_spec (size c) (wmark c + slot_count bytes)); [| lia].
  rewrite expand_outcome.
  destruct (Z.leb_spec (expand_len bytes) (avail h)); simpl; [| reflexivity].
  destruct (Z.ltb_spec (vector_size (m_chunks p)) vector_max_size); simpl;
    [| reflexivity].
  rewrite bump_after_expand by assumption. reflexivity.
Qed.

(** In a well-formed pool the current chunk exists. *)
Lemma pool_wf_current h p :
  pool_wf h p ->
  exists c, m_chunks p !! Z.to_nat (m_index p) = Some c /\ chunk_ok h c.
Proof.
  intros [Hi [Hok _]].
  destruct (lookup_lt_is_Some_2 (m_chunks p) (Z.to_nat (m_index p))) as [c Hc].
  { unfold vector_size in Hi. lia. }
  exists c. split; [exact Hc | eauto].
Qed.

(** ** Preservation of well-formedness *)

Lemma chunks_wf_bump h v (i : nat) c n :
  chunks_wf h v -> v !! i = Some c -> 0 <= wmark c + n <= size c ->
  chunks_wf h (<[i := {| ptr := ptr c; wmark := wmark c + n; size := size c |}]> v).
Proof.
  intros [Hok Hdis] Hc Hn. split.
  - intros j cj Hj. apply list_lookup_insert_Some in Hj as [(-> & <- & _) | [_ Hj]].
    + destruct (Hok _ _ Hc) as (b & Hp & Hb & Hw & Hs).
      exists b. simpl. auto.
    + eauto.
  - intros j k cj ck Hj Hk Heq.
    apply list_lookup_insert_Some in Hj as [(-> & <- & _) | [Hne Hj]];
      apply list_lookup_insert_Some in Hk as [(-> & <- & _) | [Hne' Hk]];
      simpl in Heq; eauto.
Qed.

Lemma pool_wf_bump h p c n :
  pool_wf h p -> m_chunks p !! Z.to_nat (m_index p) = Some c ->
  0 <= wmark c + n <= size c ->
  pool_wf h (pool_after_bump n c p).
Proof.
  intros [Hi Hwf] Hc Hn. split; simpl.
  - unfold vector_size in *. rewrite length_insert. exact Hi.
  - apply chunks_wf_bump; assumption.
Qed.

Lemma fresh_chunk_current bytes h p :
  m_chunks (pool_after_expand bytes h p)
    !! Z.to_nat (m_index (pool_after_expand bytes h p))
  = Some (fresh_chunk bytes h).
Proof.
  simpl. unfold vector_size. rewrite Nat2Z.id.
  apply list_lookup_middle. reflexivity.
Qed.

Lemma pool_wf_grow bytes h p :
  chunks_wf h (m_chunks p) ->
  pool_wf (heap_after_new (expand_len bytes) h) (pool_after_grow bytes h p).
Proof.
  intros Hwf. unfold pool_after_grow.
  apply pool_wf_bump.
  - apply pool_wf_expand. exact Hwf.
  - apply fresh_chunk_current.
  - simpl. pose proof (slot_count_bounds bytes). pose proof (expand_len_fits bytes).
    lia.
Qed.

(** ** Water marks only grow *)

Lemma marks_monotone_refl p : marks_monotone p p.
Proof. intros i c Hc. exists c. repeat split; auto; lia. Qed.

Lemma marks_monotone_trans p1 p2 p3 :
  marks_monotone p1 p2 -> marks_monotone p2 p3 -> marks_monotone p1 p3.
Proof.
  intros H12 H23 i c Hc.
  destruct (H12 _ _ Hc) as (c2 & Hc2 & Hp2 & Hs2 & Hw2).
  destruct (H23 _ _ Hc2) as (c3 & Hc3 & Hp3 & Hs3 & Hw3).
  exists c3. repeat split; try congruence; lia.
Qed.

Lemma marks_monotone_bump p c n :
  m_chunks p !! Z.to_nat (m_index p) = Some c -> 0 <= n ->
  marks_monotone p (pool_after_bump n c p).
Proof.
  intros Hc Hn i ci Hi. simpl.
  destruct (decide (Z.to_nat (m_index p) = i)) as [<- | Hne].
  - rewrite list_lookup_insert_eq by (eapply lookup_lt_Some; eauto).
    assert (ci = c) as -> by congruence.
    eexists. split; [reflexivity |]. simpl. repeat split; lia.
  - rewrite list_lookup_insert_ne by assumption.
    exists ci. repeat split; auto; lia.
Qed.

Lemma marks_monotone_expand bytes h p :
  marks_monotone p (pool_after_expand bytes h p).
Proof.
  intros i c Hc. exists c. simpl.
  split; [apply lookup_app_l_Some; exact Hc |]. repeat split; lia.
Qed.

Lemma marks_monotone_grow bytes h p :
  marks_monotone p (pool_after_grow bytes h p).
Proof.
  eapply marks_monotone_trans; [apply marks_monotone_expand |].
  apply marks_monotone_bump.
  - apply fresh_chunk_current.
  - apply slot_count_bounds.
Qed.

Lemma below_mark_monotone p p' r :
  marks_monotone p p' -> below_mark p r -> below_mark p' r.
Proof.
  intros Hm (i & c & Hc & Hp & H0 & Hr).
  destruct (Hm _ _ Hc) as (c' & Hc' & Hp' & _ & Hw).
  exists i, c'. unfold sizeof_uint64 in *. repeat split; try congruence; lia.
Qed.

Lemma pool_wf_chunk_invariant h p : pool_wf h p -> chunk_invariant p.
Proof.
  intros [_ [Hok _]] i c Hc. destruct (Hok _ _ Hc) as (b & _ & _ & Hw & _).
  exact Hw.
Qed.

(** ** The three ways a call returns *)

Lemma allocate_Ret_cases bytes ce h p q h' p' :
  pool_wf h p ->
  allocate bytes ce h p = Ret (q, h', p') ->
  exists c b,
    m_chunks p !! Z.to_nat (m_index p) = Some c /\ ptr c = Ptr b 0 /\
    ((wmark c + slot_count bytes <= size c /\
      q = Ptr b (wmark c) /\ h' = h /\
      p' = pool_after_bump (slot_count bytes) c p)
     \/ (size c < wmark c + slot_count bytes /\ ce = false /\
         q = nullptr /\ h' = h /\ p' = p)
     \/ (size c < wmark c + slot_count bytes /\ ce = true /\
         q = Ptr (length (blocks h)) 0 /\
         h' = heap_after_new (expand_len bytes) h /\
         p' = pool_after_grow bytes h p)).
Proof.
  intros Hwf E.
  destruct (pool_wf_current _ _ Hwf) as (c & Hc & b & Hp & Hb & Hw & Hs).
  destruct Hwf as [Hi _].
  pose proof (slot_count_bounds bytes) as Hn.
  assert (Hm : 2 ^ 61 + 2 ^ 61 < SizeT.modulus) by reflexivity.
  exists c, b. split; [exact Hc |]. split; [exact Hp |].
  destruct (Z.le_gt_cases (wmark c + slot_count bytes) (size c)) as [Hfit | Hno].
  - left. rewrite (allocate_fit bytes ce h p c b 0) in E by (auto; lia).
    inversion E. auto.
  - right. assert (size c < wmark c + slot_count bytes) by lia. destruct ce.
    + right. rewrite (allocate_grow bytes h p c) in E by (auto; lia).
      destruct ((expand_len bytes <=? avail h)
                && (vector_size (m_chunks p) <? vector_max_size));
        [| discriminate].
      inversion E. auto.
    + left. rewrite (allocate_refused bytes h p c) in E by (auto; lia).
      inversion E. auto.
Qed.

(** A call on a well-formed pool never runs into undefined behaviour. *)
Lemma allocate_defined bytes ce h p :
  pool_wf h p -> allocate bytes ce h p <> Undef.
Proof.
  intros Hwf.
  destruct (pool_wf_current _ _ Hwf) as (c & Hc & b & Hp & Hb & Hw & Hs).
  destruct Hwf as [Hi _].
  pose proof (slot_count_bounds bytes) as Hn.
  assert (Hm : 2 ^ 61 + 2 ^ 61 < SizeT.modulus) by reflexivity.
  destruct (Z.le_gt_cases (wmark c + slot_count bytes) (size c)) as [Hfit | Hno].
  - rewrite (allocate_fit bytes ce h p c b 0) by (auto; lia). discriminate.
  - destruct ce.
    + rewrite (allocate_grow bytes h p c) by (auto; lia).
      destruct ((expand_len bytes <=? avail h)
                && (vector_size (m_chunks p) <? vector_max_size));
        discriminate.
    + rewrite (allocate_refused bytes h p c) by (auto; lia). discriminate.
Qed.

Lemma allocate_preserves bytes ce h p q h' p' :
  pool_wf h p ->
  allocate bytes ce h p = Ret (q, h', p') ->
  pool_wf h' p' /\ marks_monotone p p'.
Proof.
  intros Hwf E.
  destruct (allocate_Ret_cases _ _ _ _ _ _ _ Hwf E)
    as (c & b & Hc & Hp & [(Hfit & -> & -> & ->)
                          | [(Hno & -> & -> & -> & ->)
                            | (Hno & -> & -> & -> & ->)]]).
  - pose proof (slot_count_bounds bytes) as Hn.
    assert (Hw : 0 <= wmark c <= size c).
    { eapply pool_wf_chunk_invariant; eauto. }
    split.
    + apply pool_wf_bump; auto. lia.
    + apply marks_monotone_bump; auto. lia.
  - split; [exact Hwf | apply marks_monotone_refl].
  - split.
    + apply pool_wf_grow. apply Hwf.
    + apply marks_monotone_grow.
Qed.

Lemma allocate_region bytes ce h p b off h' p' :
  pool_wf h p ->
  allocate bytes ce h p = Ret (Ptr b off, h', p') ->
  below_mark p' (slot_region b off (slot_count bytes)) /\
  forall r0, below_mark p r0 ->
             ~ overlap r0 (slot_region b off (slot_count bytes)).
Proof.
  intros Hwf E.
  pose proof (slot_count_bounds bytes) as Hn.
  destruct (allocate_Ret_cases _ _ _ _ _ _ _ Hwf E)
    as (c & b0 & Hc & Hp & [(Hfit & Hq & -> & ->)
                           | [(Hno & -> & Hq & -> & ->)
                             | (Hno & -> & Hq & -> & ->)]]);
    [| discriminate |]; inversion Hq; subst b off; clear Hq.
  - assert (Hw : 0 <= wmark c <= size c).
    { eapply pool_wf_chunk_invariant; eauto. }
    split.
    + exists (Z.to_nat (m_index p)). eexists. simpl.
      split; [apply list_lookup_insert_eq; eapply lookup_lt_Some; eauto |].
      simpl. unfold sizeof_uint64. repeat split; auto; lia.
    + intros r0 (i & ci & Hi & Hpi & H0 & Hr) (bx & x & [Hb1 Hx1] & [Hb2 Hx2]).
      simpl in *. subst bx.
      assert (i = Z.to_nat (m_index p)).
      { destruct Hwf as [_ [_ Hdis]]. eapply Hdis; eauto. congruence. }
      subst i. assert (ci = c) as -> by congruence.
      unfold sizeof_uint64 in *. lia.
  - split.
    + exists (length (m_chunks p)). eexists. simpl.
      unfold vector_size. rewrite Nat2Z.id.
      split.
      { apply list_lookup_insert_eq. rewrite length_app. simpl. lia. }
      simpl. unfold sizeof_uint64. repeat split; auto; lia.
    + intros r0 (i & ci & Hi & Hpi & H0 & Hr) (bx & x & [Hb1 Hx1] & [Hb2 Hx2]).
      simpl in *. subst bx.
      destruct Hwf as [_ [Hok _]].
      destruct (Hok _ _ Hi) as (bi & Hbi & Hlk & _).
      apply lookup_lt_Some in Hlk.
      rewrite Hbi in Hpi. inversion Hpi. lia.
Qed.

(** ** Runs of calls *)

Lemma round_up_word_slots bytes :
  0 <= bytes <= 2 ^ 64 - 8 ->
  round_up_word bytes = sizeof_uint64 * slot_count bytes.
Proof.
  intros H. rewrite slot_count_exact by exact H.
  unfold round_up_word, sizeof_uint64. do 2 f_equal. lia.
Qed.

Lemma allocate_all_cons bytes rest h p qs h' p' :
  allocate_all (bytes :: rest) h p = Ret (qs, h', p') ->
  exists q h1 p1 qs',
    MemoryPool_allocate bytes h p = Ret (q, h1, p1) /\
    allocate_all rest h1 p1 = Ret (qs', h', p') /\
    qs = q :: qs'.
Proof.
  intros E. cbn [allocate_all] in E.
  destruct (MemoryPool_allocate bytes h p) as [[[q h1] p1] | | ] eqn:E1;
    cbn [bind] in E; try discriminate.
  destruct (allocate_all rest h1 p1) as [[[qs' h2] p2] | | ] eqn:E2;
    cbn [bind] in E; try discriminate.
  inversion E; subst. exists q, h1, p1, qs'. auto.
Qed.

(** Every region a run hands out lies under a mark of the final pool, is
    clear of what lay under the marks before the run, and of the regions
    handed out earlier in the run. *)
Lemma allocate_all_regions reqs :
  forall h p qs h' p',
    pool_wf h p ->
    Forall (fun bytes => 0 <= bytes <= 2 ^ 64 - 8) reqs ->
    allocate_all reqs h p = Ret (qs, h', p') ->
    pool_wf h' p' /\ marks_monotone p p' /\
    Forall (fun r => below_mark p' r /\
                     forall r0, below_mark p r0 -> ~ overlap r0 r)
           (regions qs reqs) /\
    pairwise_disjoint (regions qs reqs).
Proof.
  induction reqs as [| bytes rest IH]; intros h p qs h' p' Hwf Hreqs E.
  - simpl in E. inversion E; subst. simpl.
    split; [exact Hwf |]. split; [apply marks_monotone_refl |].
    split; [constructor | exact I].
  - apply allocate_all_cons in E as (q & h1 & p1 & qs' & E1 & E2 & ->).
    apply Forall_cons in Hreqs as [Hb Hrest].
    unfold MemoryPool_allocate in E1.
    destruct (allocate_preserves _ _ _ _ _ _ _ Hwf E1) as [Hwf1 Hm1].
    destruct (IH _ _ _ _ _ Hwf1 Hrest E2) as (Hwf2 & Hm2 & Hall & Hpw).
    assert (Hrest' : Forall (fun r => below_mark p' r /\
                       forall r0, below_mark p r0 -> ~ overlap r0 r)
                     (regions qs' rest)).
    { eapply Forall_impl; [exact Hall |]. simpl. intros r [Hr Hd].
      split; [exact Hr |]. intros r0 Hr0. apply Hd.
      eapply below_mark_monotone; eauto. }
    split; [exact Hwf2 |].
    split; [eapply marks_monotone_trans; eauto |].
    destruct q as [| b off]; simpl; [auto |].
    rewrite round_up_word_slots by exact Hb.
    fold (slot_region b off (slot_count bytes)).
    destruct (allocate_region _ _ _ _ _ _ _ _ Hwf E1) as [Hin Hout].
    split.
    + constructor; [| exact Hrest'].
      split; [eapply below_mark_monotone; eauto | exact Hout].
    + split; [| exact Hpw].
      eapply Forall_impl; [exact Hall |]. simpl. intros r [_ Hd].
      apply Hd. exact Hin.
Qed.

(** ** Reachable states are well formed *)

Lemma expand_preserves bytes h p h' p' :
  chunks_wf h (m_chunks p) ->
  expand bytes h p = Ret (h', p') ->
  pool_wf h' p' /\ marks_monotone p p'.
Proof.
  intros Hwf E. apply expand_Ret in E as (_ & _ & -> & ->).
  split; [apply pool_wf_expand; exact Hwf | apply marks_monotone_expand].
Qed.

Lemma ctor_wf cfg h0 h p :
  MemoryPoolImpl_ctor cfg h0 = Ret (h, p) -> pool_wf h p.
Proof.
  unfold MemoryPoolImpl_ctor. intros E.
  eapply expand_preserves; [| exact E]. apply chunks_wf_nil.
Qed.

(** The pre-growing constructor leads to a reachable state as well. *)
Lemma ctor_bytes_reachable cfg bytes h0 h p :
  MemoryPool_ctor_bytes cfg bytes h0 = Ret (h, p) -> reachable h p.
Proof.
  unfold MemoryPool_ctor_bytes. intros E.
  destruct (MemoryPoolImpl_ctor cfg h0) as [[h1 p1] | | ] eqn:E1;
    cbn [bind] in E; try discriminate.
  eapply reach_expand; [eapply reach_ctor; exact E1 | exact E].
Qed.

Lemma reachable_wf h p : reachable h p -> pool_wf h p.
Proof.
  induction 1 as [cfg h0 h p E | bytes h p h' p' _ IH E
                 | bytes ce h p q h' p' _ IH E].
  - eapply ctor_wf; eauto.
  - eapply expand_preserves; [apply IH | exact E].
  - eapply allocate_preserves; eauto.
Qed.

(** C7. Chunk invariant: in every state of a pool, from its construction
    on, each chunk has [0 <= wmark <= size]; [expand] and [allocate] keep
    it so, and no water mark ever moves back (the chunks already there stay
    in place with the same buffer and capacity). *)
Theorem chunk_invariant_preserved h p :
  reachable h p ->
  chunk_invariant p /\
  (forall bytes h' p',
      expand bytes h p = Ret (h', p') ->
      chunk_invariant p' /\ marks_monotone p p') /\
  (forall bytes ce q h' p',
      allocate bytes ce h p = Ret (q, h', p') ->
      chunk_invariant p' /\ marks_monotone p p').
Proof.
  intros Hr. pose proof (reachable_wf _ _ Hr) as Hwf.
  split; [eapply pool_wf_chunk_invariant; eauto |]. split.
  - intros bytes h' p' E.
    destruct (expand_preserves bytes h p h' p' (proj2 Hwf) E) as [Hwf' Hm].
    split; [eapply pool_wf_chunk_invariant; eauto | exact Hm].
  - intros bytes ce q h' p' E.
    destruct (allocate_preserves _ _ _ _ _ _ _ Hwf E) as [Hwf' Hm].
    split; [eapply pool_wf_chunk_invariant; eauto | exact Hm].
Qed.

Lemma chunk_invariant_preserved_witness :
  reachable (heap_after_new 65536 heap0) (single_chunk_pool 0 0 65536 false) /\
  (chunk_invariant (single_chunk_pool 0 0 65536 false) /\
   (forall bytes h' p',
       expand bytes (heap_after_new 65536 heap0)
              (single_chunk_pool 0 0 65536 false) = Ret (h', p') ->
       chunk_invariant p' /\
       marks_monotone (single_chunk_pool 0 0 65536 false) p') /\
   (forall bytes ce q h' p',
       allocate bytes ce (heap_after_new 65536 heap0)
                (single_chunk_pool 0 0 65536 false) = Ret (q, h', p') ->
       chunk_invariant p' /\
       marks_monotone (single_chunk_pool 0 0 65536 false) p')).
Proof.
  assert (Hr : reachable (heap_after_new 65536 heap0)
                         (single_chunk_pool 0 0 65536 false)).
  { apply (reach_ctor config_A heap0). reflexivity. }
  split; [exact Hr |].
  exact (chunk_invariant_preserved _ _ Hr).
Defined.

(** ** Single calls *)

Lemma ceil_small_exact bytes :
  0 <= bytes -> (bytes + 7) / 8 < 2 ^ 61 -> bytes <= 2 ^ 64 - 8.
Proof.
  intros H0 H.
  pose proof (Z.div_mod (bytes + 7) 8 ltac:(lia)) as Hd.
  pose proof (Z.mod_pos_bound (bytes + 7) 8 ltac:(lia)) as Hm.
  change (2 ^ 64) with (8 * 2 ^ 61). lia.
Qed.

(** C5. Successful bump allocation: when the current chunk has at least
    [n = ceil(bytes / 8)] slots left ([size - wmark >= n], equality
    included), [allocate] returns the address at offset [wmark] of that
    chunk's buffer and moves its mark by exactly [n]; the other chunks, the
    chunk count, the current index and the free store are unchanged. *)
Theorem bump_allocation bytes ce h p c :
  reachable h p ->
  0 <= bytes < 2 ^ 64 ->
  m_chunks p !! Z.to_nat (m_index p) = Some c ->
  (bytes + 7) / 8 <= size c - wmark c ->
  exists b p',
    ptr c = Ptr b 0 /\
    slot_count bytes = (bytes + 7) / 8 /\
    allocate bytes ce h p = Ret (Ptr b (wmark c), h, p') /\
    m_chunks p' !! Z.to_nat (m_index p) =
      Some {| ptr := ptr c; wmark := wmark c + (bytes + 7) / 8; size := size c |} /\
    (forall j : nat, j <> Z.to_nat (m_index p) ->
                     m_chunks p' !! j = m_chunks p !! j) /\
    length (m_chunks p') = length (m_chunks p) /\
    m_index p' = m_index p.
Proof.
  intros Hr Hb Hc Hfit.
  destruct (reachable_wf _ _ Hr) as [Hi [Hok _]].
  destruct (Hok _ _ Hc) as (b & Hp & _ & Hw & Hs).
  assert (Hle : bytes <= 2 ^ 64 - 8) by (apply ceil_small_exact; lia).
  assert (Hn : slot_count bytes = (bytes + 7) / 8)
    by (apply slot_count_exact; lia).
  exists b, (pool_after_bump (slot_count bytes) c p).
  split; [exact Hp |]. split; [exact Hn |]. split.
  - rewrite (allocate_fit bytes ce h p c b 0); auto; try lia.
    assert (2 ^ 61 < SizeT.modulus) by reflexivity. lia.
  - simpl. rewrite Hn. split.
    + apply list_lookup_insert_eq. eapply lookup_lt_Some; eauto.
    + split; [| split; [apply length_insert | reflexivity]].
      intros j Hj. apply list_lookup_insert_ne. auto.
Qed.

Lemma bump_allocation_witness :
  exists b p',
    ptr {| ptr := Ptr 0 0; wmark := 0; size := 65536 |} = Ptr b 0 /\
    slot_count 64 = (64 + 7) / 8 /\
    allocate 64 false (heap_after_new 65536 heap0)
             (single_chunk_pool 0 0 65536 false)
      = Ret (Ptr b 0, heap_after_new 65536 heap0, p') /\
    m_chunks p' !! 0%nat =
      Some {| ptr := Ptr 0 0; wmark := 0 + (64 + 7) / 8; size := 65536 |} /\
    (forall j : nat, j <> 0%nat ->
       m_chunks p' !! j = m_chunks (single_chunk_pool 0 0 65536 false) !! j) /\
    length (m_chunks p') = 1%nat /\
    m_index p' = 0.
Proof.
  apply (bump_allocation 64 false (heap_after_new 65536 heap0)
           (single_chunk_pool 0 0 65536 false)
           {| ptr := Ptr 0 0; wmark := 0; size := 65536 |}).
  - apply (reach_ctor config_A heap0). reflexivity.
  - split; [lia | reflexivity].
  - reflexivity.
  - vm_compute. discriminate.
Defined.

Lemma pool_after_bump_zero p c :
  m_chunks p !! Z.to_nat (m_index p) = Some c -> pool_after_bump 0 c p = p.
Proof.
  intros Hc. unfold pool_after_bump. destruct p as [v i ce]. simpl in *.
  f_equal. rewrite Z.add_0_r. destruct c. simpl. apply list_insert_id. exact Hc.
Qed.

(** A request for no slot at all always succeeds and changes nothing. *)
Lemma allocate_no_slot bytes ce h p :
  pool_wf h p -> slot_count bytes = 0 ->
  exists c b,
    m_chunks p !! Z.to_nat (m_index p) = Some c /\ ptr c = Ptr b 0 /\
    blocks h !! b = Some (size c) /\ 0 <= wmark c <= size c /\
    allocate bytes ce h p = Ret (Ptr b (wmark c), h, p).
Proof.
  intros Hwf Hn.
  destruct (pool_wf_current _ _ Hwf) as (c & Hc & b & Hp & Hb & Hw & Hs).
  destruct Hwf as [Hi _].
  exists c, b. repeat split; auto; try lia.
  rewrite (allocate_fit bytes ce h p c b 0); auto; try lia.
  - rewrite Hn. rewrite pool_after_bump_zero by exact Hc. reflexivity.
  - assert (2 ^ 61 < SizeT.modulus) by reflexivity. lia.
Qed.

(** C9. Zero-byte allocation: [allocate(0)] is accepted in every state of
    the pool; it returns a non-null pointer, the address at the water mark
    of the current chunk (inside that chunk's live buffer, or one past its
    end), and consumes no slot: the pool, with every mark and the chunk
    count, and the free store are exactly as before. *)
Theorem zero_byte_allocation ce h p :
  reachable h p ->
  exists c b,
    m_chunks p !! Z.to_nat (m_index p) = Some c /\ ptr c = Ptr b 0 /\
    blocks h !! b = Some (size c) /\ 0 <= wmark c <= size c /\
    slot_count 0 = 0 /\
    allocate 0 ce h p = Ret (Ptr b (wmark c), h, p) /\
    Ptr b (wmark c) <> nullptr.
Proof.
  intros Hr.
  destruct (allocate_no_slot 0 ce h p (reachable_wf _ _ Hr) eq_refl)
    as (c & b & Hc & Hp & Hb & Hw & E).
  exists c, b. repeat split; auto; try lia; discriminate.
Qed.

Lemma zero_byte_allocation_witness :
  exists c b,
    m_chunks (single_chunk_pool 0 0 65536 false) !! 0%nat = Some c /\
    ptr c = Ptr b 0 /\
    blocks (heap_after_new 65536 heap0) !! b = Some (size c) /\
    0 <= wmark c <= size c /\
    slot_count 0 = 0 /\
    allocate 0 false (heap_after_new 65536 heap0)
             (single_chunk_pool 0 0 65536 false)
      = Ret (Ptr b (wmark c), heap_after_new 65536 heap0,
             single_chunk_pool 0 0 65536 false) /\
    Ptr b (wmark c) <> nullptr.
Proof.
  apply (zero_byte_allocation false (heap_after_new 65536 heap0)
           (single_chunk_pool 0 0 65536 false)).
  apply (reach_ctor config_A heap0). reflexivity.
Defined.

(** ** Wrap-around of the slot count *)

Lemma allocate_same_slots bytes1 bytes2 ce h p :
  slot_count bytes1 = slot_count bytes2 ->
  allocate bytes1 ce h p = allocate bytes2 ce h p.
Proof. intros H. unfold allocate, expand. rewrite H. reflexivity. Qed.

Lemma expand_same_slots bytes1 bytes2 h p :
  slot_count bytes1 = slot_count bytes2 ->
  expand bytes1 h p = expand bytes2 h p.
Proof. intros H. unfold expand. rewrite H. reflexivity. Qed.

(** C10. For a byte count above [2^64 - 8] the sum [bytes + 8] of the slot
    expression overflows, so the slot count is 0 where the byte count
    calls for [2^61] slots; [expand] and [allocate] treat the request as a
    request for 0 bytes, and [allocate] succeeds in every state of the
    pool: it returns a non-null pointer and consumes no slot. *)
Theorem slot_count_wraps bytes :
  2 ^ 64 - 8 < bytes < 2 ^ 64 ->
  SizeT.add bytes sizeof_uint64 = bytes + 8 - 2 ^ 64 /\
  slot_count bytes = 0 /\
  (bytes + 7) / 8 = 2 ^ 61 /\
  (forall h p, expand bytes h p = expand 0 h p) /\
  (forall ce h p, allocate bytes ce h p = allocate 0 ce h p) /\
  (forall ce h p,
      reachable h p ->
      exists q, allocate bytes ce h p = Ret (q, h, p) /\ q <> nullptr).
Proof.
  intros H. pose proof (slot_count_wrapped bytes H) as Hn.
  split.
  { unfold SizeT.add, SizeT.wrap, SizeT.modulus, sizeof_uint64.
    symmetry. apply (Z.mod_unique_pos _ _ 1); lia. }
  split; [exact Hn |]. split.
  { symmetry. apply (Z.div_unique_pos _ _ _ (bytes + 7 - 2 ^ 64)).
    - lia.
    - change (2 ^ 64) with (8 * 2 ^ 61). lia. }
  split; [intros; apply expand_same_slots; rewrite Hn; reflexivity |].
  split; [intros; apply allocate_same_slots; rewrite Hn; reflexivity |].
  intros ce h p Hr.
  destruct (allocate_no_slot bytes ce h p (reachable_wf _ _ Hr) Hn)
    as (c & b & _ & _ & _ & _ & E).
  exists (Ptr b (wmark c)). split; [exact E | discriminate].
Qed.

Lemma slot_count_wraps_witness :
  SizeT.add (2 ^ 64 - 1) sizeof_uint64 = 2 ^ 64 - 1 + 8 - 2 ^ 64 /\
  slot_count (2 ^ 64 - 1) = 0 /\
  (2 ^ 64 - 1 + 7) / 8 = 2 ^ 61 /\
  (forall h p, expand (2 ^ 64 - 1) h p = expand 0 h p) /\
  (forall ce h p, allocate (2 ^ 64 - 1) ce h p = allocate 0 ce h p) /\
  (forall ce h p,
      reachable h p ->
      exists q, allocate (2 ^ 64 - 1) ce h p = Ret (q, h, p) /\ q <> nullptr).
Proof.
  apply (slot_count_wraps (2 ^ 64 - 1)). split; reflexivity.
Defined.

(** ** Growth sizing *)

(** C3 (as the code has it). For every byte count up to [2^64 - 8],
    [expand] computes [n = ceil(bytes / 8)], asks [new] for
    [max n 65536] elements ([chunksize = 64 * 1024] counts slots, so the
    default chunk holds 512 KiB) and, when [new] and [push_back] succeed,
    appends exactly one chunk owning that fresh array, with its mark at 0,
    and makes it the current chunk; it throws otherwise.  The chunk is
    large enough for the whole request. *)
Theorem expand_sizing bytes h p :
  0 <= bytes <= 2 ^ 64 - 8 ->
  let n := (bytes + 7) / 8 in
  let len := Z.max n 65536 in
  let c := {| ptr := Ptr (length (blocks h)) 0; wmark := 0; size := len |} in
  let h' := {| blocks := blocks h ++ [len]; avail := avail h - len |} in
  let p' := {| m_chunks := m_chunks p ++ [c];
               m_index := vector_size (m_chunks p);
               m_can_expand := m_can_expand p |} in
  slot_count bytes = n /\
  expand bytes h p =
    (if (len <=? avail h) && (vector_size (m_chunks p) <? vector_max_size)
     then Ret (h', p') else Throw) /\
  blocks h !! length (blocks h) = None /\
  m_chunks p' !! Z.to_nat (m_index p') = Some c /\
  bytes <= sizeof_uint64 * len.
Proof.
  intros H n len c h' p'.
  pose proof (slot_count_exact bytes H) as Hn. fold n in Hn.
  assert (Hlen : expand_len bytes = len).
  { unfold expand_len. rewrite Hn. reflexivity. }
  split; [exact Hn |]. split.
  { rewrite expand_outcome. rewrite Hlen.
    unfold heap_after_new, pool_after_expand, fresh_chunk. rewrite Hlen.
    reflexivity. }
  split; [apply lookup_ge_None_2; lia |]. split.
  { pose proof (fresh_chunk_current bytes h p) as Hcur.
    unfold pool_after_expand, fresh_chunk in Hcur. rewrite Hlen in Hcur.
    exact Hcur. }
  pose proof (slot_count_covers bytes H) as Hcov. rewrite Hn in Hcov.
  unfold sizeof_uint64. subst len. lia.
Qed.

Lemma expand_sizing_witness :
  0 <= 70 * 1024 <= 2 ^ 64 - 8 /\
  slot_count (70 * 1024) = 8960 /\
  expand (70 * 1024) (heap_after_new 65536 heap0)
         (single_chunk_pool 0 0 65536 true) =
    Ret ({| blocks := [65536; 65536]; avail := 2 ^ 32 - 65536 - 65536 |},
         {| m_chunks := [{| ptr := Ptr 0 0; wmark := 0; size := 65536 |};
                         {| ptr := Ptr 1 0; wmark := 0; size := 65536 |}];
            m_index := 1;
            m_can_expand := true |}).
Proof.
  assert (H : 0 <= 70 * 1024 <= 2 ^ 64 - 8) by (split; discriminate).
  split; [exact H |].
  destruct (expand_sizing (70 * 1024) (heap_after_new 65536 heap0)
                          (single_chunk_pool 0 0 65536 true) H)
    as (Hn & He & _).
  split; [exact Hn | exact He].
Defined.

Lemma expand_sizing_counterexample : ~ exists D, expand_sizing_claim D.
Proof.
  intros [D Hclaim].
  destruct (Hclaim (2 ^ 64 - 1) heap0
                   {| m_chunks := []; m_index := 0; m_can_expand := true |}
                   (heap_after_new 65536 heap0)
                   (single_chunk_pool 0 0 65536 true))
    as (c & Hc & Hs).
  - split; [discriminate | reflexivity].
  - reflexivity.
  - simpl in Hc. inversion Hc; subst c. simpl in Hs.
    assert (Hbig : (2 ^ 64 - 1 + 7) / 8 = 2 ^ 61) by reflexivity.
    rewrite Hbig in Hs.
    assert (65536 < 2 ^ 61) by reflexivity. lia.
Qed.

(** ** Refusal when growth is off *)

Lemma allocate_all_refused reqs h p c :
  pool_wf h p -> m_can_expand p = false ->
  m_chunks p !! Z.to_nat (m_index p) = Some c ->
  Forall (fun bytes => size c - wmark c < slot_count bytes) reqs ->
  allocate_all reqs h p = Ret (replicate (length reqs) nullptr, h, p).
Proof.
  intros Hwf Hce Hc Hall.
  assert (Hone : forall bytes, size c - wmark c < slot_count bytes ->
                   MemoryPool_allocate bytes h p = Ret (nullptr, h, p)).
  { intros bytes Hno. unfold MemoryPool_allocate. rewrite Hce.
    destruct Hwf as [Hi [Hok _]].
    destruct (Hok _ _ Hc) as (b & _ & _ & Hw & Hs).
    pose proof (slot_count_bounds bytes) as Hn.
    assert (2 ^ 61 + 2 ^ 61 < SizeT.modulus) by reflexivity.
    apply (allocate_refused bytes h p c); auto; lia. }
  induction Hall as [| bytes rest Hb _ IH]; [reflexivity |].
  cbn [allocate_all length replicate]. rewrite (Hone _ Hb). cbn [bind].
  rewrite IH. reflexivity.
Qed.

(** C4 (as the code has it). With growth off, a request needing more slots
    than the current chunk has left is answered by the null pointer: the
    call returns (no exception), appends no chunk and leaves the pool, with
    every water mark, and the free store exactly as they were, so what was
    handed out before is untouched.  Since the state does not change, every
    later request that needs more slots than are left is refused as well,
    however many follow. *)
Theorem refusal_without_growth bytes h p c :
  reachable h p ->
  m_chunks p !! Z.to_nat (m_index p) = Some c ->
  size c - wmark c < slot_count bytes ->
  allocate bytes false h p = Ret (nullptr, h, p) /\
  (forall bytes',
      size c - wmark c < slot_count bytes' ->
      allocate bytes' false h p = Ret (nullptr, h, p)) /\
  (forall reqs,
      m_can_expand p = false ->
      Forall (fun bytes' => size c - wmark c < slot_count bytes') reqs ->
      allocate_all reqs h p = Ret (replicate (length reqs) nullptr, h, p)).
Proof.
  intros Hr Hc Hno. pose proof (reachable_wf _ _ Hr) as Hwf.
  assert (Hone : forall bytes', size c - wmark c < slot_count bytes' ->
                   allocate bytes' false h p = Ret (nullptr, h, p)).
  { intros bytes' Hno'.
    destruct Hwf as [Hi [Hok _]].
    destruct (Hok _ _ Hc) as (b & _ & _ & Hw & Hs).
    pose proof (slot_count_bounds bytes') as Hn.
    assert (2 ^ 61 + 2 ^ 61 < SizeT.modulus) by reflexivity.
    apply (allocate_refused bytes' h p c); auto; lia. }
  split; [apply Hone; exact Hno |]. split; [exact Hone |].
  intros reqs Hce Hall. eapply allocate_all_refused; eauto.
Qed.

Lemma refusal_without_growth_witness :
  reachable (heap_after_new 65536 heap0) (single_chunk_pool 0 65536 65536 false) /\
  allocate 8 false (heap_after_new 65536 heap0)
           (single_chunk_pool 0 65536 65536 false)
    = Ret (nullptr, heap_after_new 65536 heap0,
           single_chunk_pool 0 65536 65536 false) /\
  allocate_all [8; 64; 1] (heap_after_new 65536 heap0)
               (single_chunk_pool 0 65536 65536 false)
    = Ret ([nullptr; nullptr; nullptr], heap_after_new 65536 heap0,
           single_chunk_pool 0 65536 65536 false).
Proof.
  assert (Hr : reachable (heap_after_new 65536 heap0)
                         (single_chunk_pool 0 65536 65536 false)).
  { apply (reach_allocate 524288 false (heap_after_new 65536 heap0)
             (single_chunk_pool 0 0 65536 false) (Ptr 0 0)).
    - apply (reach_ctor config_A heap0). reflexivity.
    - reflexivity. }
  destruct (refusal_without_growth 8 (heap_after_new 65536 heap0)
              (single_chunk_pool 0 65536 65536 false)
              {| ptr := Ptr 0 0; wmark := 65536; size := 65536 |}
              Hr eq_refl eq_refl) as (H1 & _ & H3).
  split; [exact Hr |]. split; [exact H1 |].
  apply (H3 [8; 64; 1] eq_refl).
  repeat constructor.
Defined.

Lemma refusal_without_growth_counterexample :
  reachable (heap_after_new 65536 heap0) (single_chunk_pool 0 65536 65536 false) /\
  ~ exhaustion_claim (heap_after_new 65536 heap0)
                     (single_chunk_pool 0 65536 65536 false).
Proof.
  split.
  - apply (reach_allocate 524288 false (heap_after_new 65536 heap0)
             (single_chunk_pool 0 0 65536 false) (Ptr 0 0)).
    + apply (reach_ctor config_A heap0). reflexivity.
    + reflexivity.
  - intros Hclaim.
    specialize (Hclaim 8 ltac:(split; [discriminate | reflexivity]) eq_refl
                       0 ltac:(split; [discriminate | reflexivity])).
    discriminate Hclaim.
Qed.

(** ** The scenarios *)

Lemma ctor_outcome cfg h0 :
  MemoryPool_ctor cfg h0 =
    if expand_len (pool_size cfg) <=? avail h0
    then Ret (heap_after_new (expand_len (pool_size cfg)) h0,
              single_chunk_pool (length (blocks h0)) 0
                                (expand_len (pool_size cfg)) (can_expand cfg))
    else Throw.
Proof.
  unfold MemoryPool_ctor, MemoryPoolImpl_ctor. rewrite expand_outcome.
  destruct (expand_len (pool_size cfg) <=? avail h0); reflexivity.
Qed.

(** C1 (as the code has it). Scenario A, [pool_size = 128] and
    [can_expand = false]: the constructor builds one chunk of 65536 slots
    (the default chunk size, not 16); [allocate(64)] succeeds and takes
    slots 0 to 7, [allocate(64)] succeeds and takes slots 8 to 15, and
    [allocate(8)] succeeds as well, taking slot 16. *)
Theorem scenario_A h0 :
  65536 <= avail h0 ->
  let b := length (blocks h0) in
  let h := heap_after_new 65536 h0 in
  MemoryPool_ctor config_A h0 = Ret (h, single_chunk_pool b 0 65536 false) /\
  MemoryPool_allocate 64 h (single_chunk_pool b 0 65536 false)
    = Ret (Ptr b 0, h, single_chunk_pool b 8 65536 false) /\
  MemoryPool_allocate 64 h (single_chunk_pool b 8 65536 false)
    = Ret (Ptr b 8, h, single_chunk_pool b 16 65536 false) /\
  MemoryPool_allocate 8 h (single_chunk_pool b 16 65536 false)
    = Ret (Ptr b 16, h, single_chunk_pool b 17 65536 false) /\
  allocate_all [64; 64; 8] h (single_chunk_pool b 0 65536 false)
    = Ret ([Ptr b 0; Ptr b 8; Ptr b 16], h, single_chunk_pool b 17 65536 false).
Proof.
  intros Ha b h. split.
  - rewrite ctor_outcome.
    change (expand_len (pool_size config_A)) with 65536.
    apply Z.leb_le in Ha. rewrite Ha. reflexivity.
  - repeat split; reflexivity.
Qed.

Lemma scenario_A_witness :
  65536 <= avail heap0 /\
  MemoryPool_ctor config_A heap0
    = Ret (heap_after_new 65536 heap0, single_chunk_pool 0 0 65536 false) /\
  allocate_all [64; 64; 8] (heap_after_new 65536 heap0)
               (single_chunk_pool 0 0 65536 false)
    = Ret ([Ptr 0 0; Ptr 0 8; Ptr 0 16], heap_after_new 65536 heap0,
           single_chunk_pool 0 17 65536 false).
Proof.
  assert (Ha : 65536 <= avail heap0) by discriminate.
  destruct (scenario_A heap0 Ha) as (Hc & _ & _ & _ & Hall).
  split; [exact Ha |]. split; [exact Hc | exact Hall].
Defined.

Lemma scenario_A_counterexample : ~ scenario_A_claim heap0.
Proof.
  intros (h & p & q1 & q2 & h' & p' & Hc & Hall & _).
  vm_compute in Hc. inversion Hc; subst h p.
  vm_compute in Hall. discriminate Hall.
Qed.

(** C6 (as the code has it). With growth on, a request that needs more
    slots than the current chunk has left succeeds whenever [new] and
    [push_back] do: [expand] appends one chunk of [max n 65536 >= n] slots
    and the call returns the start of that fresh, non-null buffer, having
    moved the new mark by exactly [n]; the older chunks are untouched and
    the chunk count grows by one (to 2 on a fresh pool).  A request merely
    larger than a default chunk does not have to grow: on the default
    configuration ([pool_size = 2097152], so one chunk of 262144 slots)
    [allocate(70 * 1024)] needs 8960 slots, is served from the initial
    chunk, returns non-null and leaves the arena with 1 chunk, whereas
    [allocate(3 * 1024 * 1024)] does grow it to 2 chunks. *)
Theorem single_call_growth :
  (forall bytes h p c,
      reachable h p ->
      m_chunks p !! Z.to_nat (m_index p) = Some c ->
      size c - wmark c < slot_count bytes ->
      expand_len bytes <= avail h ->
      vector_size (m_chunks p) < vector_max_size ->
      exists p',
        allocate bytes true h p =
          Ret (Ptr (length (blocks h)) 0,
               heap_after_new (expand_len bytes) h, p') /\
        blocks h !! length (blocks h) = None /\
        length (m_chunks p') = S (length (m_chunks p)) /\
        m_chunks p' !! Z.to_nat (m_index p') =
          Some {| ptr := Ptr (length (blocks h)) 0;
                  wmark := slot_count bytes;
                  size := Z.max (slot_count bytes) 65536 |} /\
        marks_monotone p p') /\
  MemoryPool_ctor default_config heap0
    = Ret (heap_after_new 262144 heap0, single_chunk_pool 0 0 262144 true) /\
  MemoryPool_allocate (70 * 1024) (heap_after_new 262144 heap0)
                      (single_chunk_pool 0 0 262144 true)
    = Ret (Ptr 0 0, heap_after_new 262144 heap0,
           single_chunk_pool 0 8960 262144 true) /\
  MemoryPool_allocate (3 * 1024 * 1024) (heap_after_new 262144 heap0)
                      (single_chunk_pool 0 0 262144 true)
    = Ret (Ptr 1 0, heap_after_new 393216 (heap_after_new 262144 heap0),
           {| m_chunks := [{| ptr := Ptr 0 0; wmark := 0; size := 262144 |};
                           {| ptr := Ptr 1 0; wmark := 393216; size := 393216 |}];
              m_index := 1;
              m_can_expand := true |}).
Proof.
  split; [| repeat split; reflexivity].
  intros bytes h p c Hr Hc Hno Ha Hv.
  pose proof (reachable_wf _ _ Hr) as Hwf.
  destruct Hwf as [Hi [Hok Hdis]].
  destruct (Hok _ _ Hc) as (b & _ & _ & Hw & Hs).
  pose proof (slot_count_bounds bytes) as Hn.
  assert (2 ^ 61 + 2 ^ 61 < SizeT.modulus) by reflexivity.
  exists (pool_after_grow bytes h p). split.
  - rewrite (allocate_grow bytes h p c) by (auto; lia).
    apply Z.leb_le in Ha. apply Z.ltb_lt in Hv. rewrite Ha, Hv. reflexivity.
  - split; [apply lookup_ge_None_2; lia |]. split.
    + simpl. rewrite length_insert, length_app. simpl. lia.
    + split; [| apply marks_monotone_grow].
      simpl. unfold vector_size. rewrite Nat2Z.id.
      apply list_lookup_insert_eq. rewrite length_app. simpl. lia.
Qed.

Lemma single_call_growth_witness :
  reachable (heap_after_new 262144 heap0) (single_chunk_pool 0 0 262144 true) /\
  exists p',
    allocate (3 * 1024 * 1024) true (heap_after_new 262144 heap0)
             (single_chunk_pool 0 0 262144 true)
      = Ret (Ptr 1 0, heap_after_new 393216 (heap_after_new 262144 heap0), p') /\
    length (m_chunks p') = 2%nat.
Proof.
  assert (Hr : reachable (heap_after_new 262144 heap0)
                         (single_chunk_pool 0 0 262144 true)).
  { apply (reach_ctor default_config heap0). reflexivity. }
  split; [exact Hr |].
  destruct single_call_growth as [Hgen _].
  destruct (Hgen (3 * 1024 * 1024) (heap_after_new 262144 heap0)
                 (single_chunk_pool 0 0 262144 true)
                 {| ptr := Ptr 0 0; wmark := 0; size := 262144 |}
                 Hr eq_refl eq_refl)
    as (p' & E & _ & Hlen & _).
  - discriminate.
  - reflexivity.
  - exists p'. split; [exact E | exact Hlen].
Defined.

Lemma single_call_growth_counterexample : ~ scenario_B_claim heap0.
Proof.
  intros (h & p & q & h' & p' & Hc & E & _ & Hlen).
  vm_compute in Hc. inversion Hc; subst h p.
  vm_compute in E. inversion E; subst q h' p'.
  discriminate Hlen.
Qed.

(** ** Runs that fit the current chunk *)

Lemma round_up_word_ge bytes : 0 <= bytes -> bytes <= round_up_word bytes.
Proof.
  intros H. unfold round_up_word, sizeof_uint64.
  pose proof (Z.div_mod (bytes + 8 - 1) 8 ltac:(lia)) as Hd.
  pose proof (Z.mod_pos_bound (bytes + 8 - 1) 8 ltac:(lia)) as Hm.
  lia.
Qed.

Lemma total_rounded_nonneg reqs :
  Forall (fun bytes => 0 <= bytes) reqs -> 0 <= total (map round_up_word reqs).
Proof.
  induction 1 as [| bytes rest Hb _ IH]; simpl; [lia |].
  pose proof (round_up_word_ge bytes Hb). lia.
Qed.

Lemma requests_in_range reqs bound :
  Forall (fun bytes => 0 <= bytes) reqs ->
  total (map round_up_word reqs) <= bound ->
  Forall (fun bytes => 0 <= bytes <= bound) reqs.
Proof.
  induction 1 as [| bytes rest Hb Hrest IH]; intros Hsum; [constructor |].
  simpl in Hsum.
  pose proof (round_up_word_ge bytes Hb).
  pose proof (total_rounded_nonneg rest Hrest).
  constructor; [lia | apply IH; lia].
Qed.

Lemma current_after_bump n c p :
  m_chunks p !! Z.to_nat (m_index p) = Some c ->
  m_chunks (pool_after_bump n c p) !! Z.to_nat (m_index (pool_after_bump n c p))
  = Some {| ptr := ptr c; wmark := wmark c + n; size := size c |}.
Proof.
  intros Hc. simpl. apply list_lookup_insert_eq. eapply lookup_lt_Some; eauto.
Qed.

(** While the rounded sizes fit what the current chunk has left, every call
    is a plain bump: no growth, no refusal, no exception. *)
Lemma allocate_all_fits reqs :
  forall h p c b,
    0 <= m_index p ->
    m_chunks p !! Z.to_nat (m_index p) = Some c ->
    ptr c = Ptr b 0 -> 0 <= wmark c -> size c < 2 ^ 61 ->
    Forall (fun bytes => 0 <= bytes <= 2 ^ 64 - 8) reqs ->
    sizeof_uint64 * wmark c + total (map round_up_word reqs)
      <= sizeof_uint64 * size c ->
    exists qs p',
      allocate_all reqs h p = Ret (qs, h, p') /\
      length (m_chunks p') = length (m_chunks p) /\
      Forall (fun q => exists off, q = Ptr b off) qs.
Proof.
  induction reqs as [| bytes rest IH]; intros h p c b Hi Hc Hp Hw Hs Hreqs Hsum.
  - exists [], p. simpl. auto.
  - apply Forall_cons in Hreqs as [Hb Hrest].
    simpl in Hsum. rewrite round_up_word_slots in Hsum by exact Hb.
    pose proof (slot_count_bounds bytes) as Hn.
    assert (H0 : 0 <= total (map round_up_word rest)).
    { apply total_rounded_nonneg. eapply Forall_impl; [exact Hrest |].
      simpl. intros; lia. }
    assert (Hm : 2 ^ 61 < SizeT.modulus) by reflexivity.
    unfold sizeof_uint64 in Hsum.
    assert (E1 : MemoryPool_allocate bytes h p =
                 Ret (Ptr b (wmark c), h, pool_after_bump (slot_count bytes) c p)).
    { unfold MemoryPool_allocate.
      rewrite (allocate_fit bytes (m_can_expand p) h p c b 0); auto; lia. }
    destruct (IH h (pool_after_bump (slot_count bytes) c p)
                 {| ptr := ptr c; wmark := wmark c + slot_count bytes;
                    size := size c |} b)
      as (qs & p' & E2 & Hlen & Hqs); simpl; auto; try lia.
    { apply current_after_bump. exact Hc. }
    { unfold sizeof_uint64. lia. }
    exists (Ptr b (wmark c) :: qs), p'.
    cbn [allocate_all]. rewrite E1. cbn [bind]. rewrite E2. cbn [bind].
    split; [reflexivity |]. split.
    + rewrite Hlen. simpl. apply length_insert.
    + constructor; [eauto | exact Hqs].
Qed.

Lemma address_aligned base b off :
  aligned8 (base b) -> aligned8 (address base (Ptr b off)).
Proof.
  unfold aligned8, address, sizeof_uint64. intros H.
  rewrite Z.mul_comm, Z_mod_plus_full. exact H.
Qed.

(** C2 (as the code has it). No spurious growth: on a pool built with
    [pool_size <= 2^64 - 8], every run of requests whose sizes, each
    rounded up to whole 8-byte words, add up to at most [pool_size] is
    served from the first chunk: each call returns, the chunk count stays 1
    and the free store is not touched, every result is non-null, 8-byte
    aligned whenever the arrays are, and disjoint from the regions returned
    earlier in the run. *)
Theorem no_spurious_growth cfg h0 h p reqs :
  0 <= pool_size cfg <= 2 ^ 64 - 8 ->
  MemoryPool_ctor cfg h0 = Ret (h, p) ->
  Forall (fun bytes => 0 <= bytes) reqs ->
  total (map round_up_word reqs) <= pool_size cfg ->
  exists qs p',
    allocate_all reqs h p = Ret (qs, h, p') /\
    length (m_chunks p') = 1%nat /\
    Forall (fun q => q <> nullptr) qs /\
    (forall base, (forall b, aligned8 (base b)) ->
                  Forall (fun q => aligned8 (address base q)) qs) /\
    pairwise_disjoint (regions qs reqs).
Proof.
  intros Hps Hctor Hnn Hsum.
  pose proof (ctor_wf cfg h0 h p Hctor) as Hwf.
  rewrite ctor_outcome in Hctor.
  destruct (expand_len (pool_size cfg) <=? avail h0); [| discriminate].
  inversion Hctor as [[Hh Hp]]. clear Hctor. subst h p.
  set (b := length (blocks h0)) in *.
  set (cap := expand_len (pool_size cfg)) in *.
  assert (Hrange : Forall (fun bytes => 0 <= bytes <= 2 ^ 64 - 8) reqs).
  { eapply Forall_impl; [apply (requests_in_range reqs (pool_size cfg)); auto |].
    simpl. intros; lia. }
  assert (Hcap : pool_size cfg <= sizeof_uint64 * cap).
  { pose proof (slot_count_covers _ Hps). pose proof (expand_len_fits (pool_size cfg)).
    subst cap. unfold sizeof_uint64. lia. }
  assert (Hbound : cap < 2 ^ 61) by apply expand_len_bounds.
  destruct (allocate_all_fits reqs (heap_after_new cap h0)
              (single_chunk_pool b 0 cap (can_expand cfg))
              {| ptr := Ptr b 0; wmark := 0; size := cap |} b)
    as (qs & p' & E & Hlen & Hqs); simpl; auto; try lia.
  exists qs, p'. split; [exact E |].
  split; [exact Hlen |]. split.
  { eapply Forall_impl; [exact Hqs |]. simpl. intros q [off ->]. discriminate. }
  split.
  { intros base Hbase. eapply Forall_impl; [exact Hqs |]. simpl.
    intros q [off ->]. apply address_aligned. apply Hbase. }
  destruct (allocate_all_regions reqs _ _ _ _ _ Hwf Hrange E) as (_ & _ & _ & Hpw).
  exact Hpw.
Qed.

Lemma no_spurious_growth_witness :
  0 <= pool_size config_A <= 2 ^ 64 - 8 /\
  MemoryPool_ctor config_A heap0
    = Ret (heap_after_new 65536 heap0, single_chunk_pool 0 0 65536 false) /\
  total (map round_up_word [64; 50; 8]) <= pool_size config_A /\
  exists qs p',
    allocate_all [64; 50; 8] (heap_after_new 65536 heap0)
                 (single_chunk_pool 0 0 65536 false)
      = Ret (qs, heap_after_new 65536 heap0, p') /\
    length (m_chunks p') = 1%nat /\
    Forall (fun q => q <> nullptr) qs /\
    (forall base, (forall b, aligned8 (base b)) ->
                  Forall (fun q => aligned8 (address base q)) qs) /\
    pairwise_disjoint (regions qs [64; 50; 8]).
Proof.
  assert (H1 : 0 <= pool_size config_A <= 2 ^ 64 - 8) by (split; discriminate).
  assert (H2 : MemoryPool_ctor config_A heap0
               = Ret (heap_after_new 65536 heap0,
                      single_chunk_pool 0 0 65536 false)) by reflexivity.
  assert (H3 : Forall (fun bytes => 0 <= bytes) [64; 50; 8])
    by (repeat constructor; discriminate).
  assert (H4 : total (map round_up_word [64; 50; 8]) <= pool_size config_A)
    by discriminate.
  split; [exact H1 |]. split; [exact H2 |]. split; [exact H4 |].
  exact (no_spurious_growth config_A heap0 _ _ [64; 50; 8] H1 H2 H3 H4).
Defined.

Lemma no_spurious_growth_counterexample :
  ~ no_spurious_growth_claim {| pool_size := 524296; can_expand := true |}
      heap0 [262145; 262145].
Proof.
  intros Hclaim.
  destruct (Hclaim (heap_after_new 65537 heap0)
                   (single_chunk_pool 0 0 65537 true) eq_refl)
    as (qs & h' & p' & E & Hlen & _).
  - discriminate.
  - vm_compute in E. inversion E; subst qs h' p'. discriminate Hlen.
Qed.

(** ** Disjointness of what is handed out *)

Lemma allocate_all_defined reqs :
  forall h p, pool_wf h p -> allocate_all reqs h p <> Undef.
Proof.
  induction reqs as [| bytes rest IH]; intros h p Hwf; [discriminate |].
  cbn [allocate_all].
  destruct (MemoryPool_allocate bytes h p) as [[[q h1] p1] | | ] eqn:E1;
    cbn [bind]; try discriminate.
  - unfold MemoryPool_allocate in E1.
    destruct (allocate_preserves _ _ _ _ _ _ _ Hwf E1) as [Hwf1 _].
    specialize (IH h1 p1 Hwf1).
    destruct (allocate_all rest h1 p1) as [[[qs h2] p2] | | ];
      cbn [bind]; try discriminate. congruence.
  - exfalso. eapply allocate_defined; eauto.
Qed.

(** C8 (as the code has it). Disjointness: in every state of a pool, a run
    of requests of at most [2^64 - 8] bytes each never runs into undefined
    behaviour, and when its calls return, the regions of the successful
    ones, each spanning the request rounded up to whole words, are pairwise
    disjoint and disjoint from everything that lay under a water mark
    before the run. *)
Theorem returned_regions_disjoint h p reqs :
  reachable h p ->
  Forall (fun bytes => 0 <= bytes <= 2 ^ 64 - 8) reqs ->
  allocate_all reqs h p <> Undef /\
  forall qs h' p',
    allocate_all reqs h p = Ret (qs, h', p') ->
    pairwise_disjoint (regions qs reqs) /\
    Forall (fun r => forall r0, below_mark p r0 -> ~ overlap r0 r)
           (regions qs reqs).
Proof.
  intros Hr Hreqs. pose proof (reachable_wf _ _ Hr) as Hwf.
  split; [apply allocate_all_defined; exact Hwf |].
  intros qs h' p' E.
  destruct (allocate_all_regions reqs _ _ _ _ _ Hwf Hreqs E)
    as (_ & _ & Hall & Hpw).
  split; [exact Hpw |].
  eapply Forall_impl; [exact Hall |]. simpl. intros r [_ Hd]. exact Hd.
Qed.

Lemma returned_regions_disjoint_witness :
  reachable (heap_after_new 65536 heap0) (single_chunk_pool 0 0 65536 true) /\
  allocate_all [524280; 16; 1; 24] (heap_after_new 65536 heap0)
               (single_chunk_pool 0 0 65536 true)
    = Ret ([Ptr 0 0; Ptr 1 0; Ptr 1 2; Ptr 1 3],
           heap_after_new 65536 (heap_after_new 65536 heap0),
           {| m_chunks := [{| ptr := Ptr 0 0; wmark := 65535; size := 65536 |};
                           {| ptr := Ptr 1 0; wmark := 6; size := 65536 |}];
              m_index := 1;
              m_can_expand := true |}) /\
  pairwise_disjoint
    (regions [Ptr 0 0; Ptr 1 0; Ptr 1 2; Ptr 1 3] [524280; 16; 1; 24]).
Proof.
  assert (Hr : reachable (heap_after_new 65536 heap0)
                         (single_chunk_pool 0 0 65536 true)).
  { apply (reach_ctor {| pool_size := 128; can_expand := true |} heap0).
    reflexivity. }
  assert (Hreqs : Forall (fun bytes => 0 <= bytes <= 2 ^ 64 - 8)
                         [524280; 16; 1; 24])
    by (repeat constructor; discriminate).
  assert (E : allocate_all [524280; 16; 1; 24] (heap_after_new 65536 heap0)
                           (single_chunk_pool 0 0 65536 true)
              = Ret ([Ptr 0 0; Ptr 1 0; Ptr 1 2; Ptr 1 3],
                     heap_after_new 65536 (heap_after_new 65536 heap0),
                     {| m_chunks :=
                          [{| ptr := Ptr 0 0; wmark := 65535; size := 65536 |};
                           {| ptr := Ptr 1 0; wmark := 6; size := 65536 |}];
                        m_index := 1;
                        m_can_expand := true |})) by reflexivity.
  split; [exact Hr |]. split; [exact E |].
  destruct (returned_regions_disjoint _ _ _ Hr Hreqs) as [_ Hd].
  exact (proj1 (Hd _ _ _ E)).
Defined.

Lemma returned_regions_disjoint_counterexample :
  reachable (heap_after_new 65536 heap0) (single_chunk_pool 0 0 65536 true) /\
  ~ disjointness_claim (heap_after_new 65536 heap0)
                       (single_chunk_pool 0 0 65536 true)
                       [2 ^ 64 - 1; 8].
Proof.
  split.
  { apply (reach_ctor {| pool_size := 128; can_expand := true |} heap0).
    reflexivity. }
  intros Hclaim.
  assert (Hpos : Forall (fun bytes => 0 < bytes < 2 ^ 64) [2 ^ 64 - 1; 8])
    by (repeat constructor).
  specialize (Hclaim Hpos [Ptr 0 0; Ptr 0 0] (heap_after_new 65536 heap0)
                     (single_chunk_pool 0 1 65536 true) eq_refl).
  destruct Hclaim as [Hfirst _].
  apply Forall_cons in Hfirst as [Hno _].
  apply Hno. exists 0%nat, 0.
  split; (split; [reflexivity | vm_compute; split; [discriminate | reflexivity]]).
Qed.

(** ** The current chunk is the last one *)

Lemma insert_last (l : list Chunk) (x y : Chunk) :
  <[length l := x]> (l ++ [y]) = l ++ [x].
Proof.
  rewrite insert_app_r_alt by lia. rewrite Nat.sub_diag. reflexivity.
Qed.

Lemma pool_after_grow_chunks bytes h p :
  m_chunks (pool_after_grow bytes h p) =
    m_chunks p ++ [{| ptr := Ptr (length (blocks h)) 0;
                      wmark := slot_count bytes;
                      size := expand_len bytes |}].
Proof.
  simpl. unfold vector_size. rewrite Nat2Z.id. apply insert_last.
Qed.

Lemma reachable_index_last h p :
  reachable h p -> m_index p = vector_size (m_chunks p) - 1.
Proof.
  induction 1 as [cfg h0 h p E | bytes h p h' p' Hr IH E
                 | bytes ce h p q h' p' Hr IH E].
  - unfold MemoryPoolImpl_ctor in E.
    apply expand_Ret in E as (_ & _ & _ & ->). reflexivity.
  - apply expand_Ret in E as (_ & _ & _ & ->). simpl.
    rewrite vector_size_app. lia.
  - destruct (allocate_Ret_cases _ _ _ _ _ _ _ (reachable_wf _ _ Hr) E)
      as (c & b & Hc & Hp & [(_ & _ & _ & ->)
                            | [(_ & _ & _ & _ & ->) | (_ & _ & _ & _ & ->)]]).
    + simpl. unfold vector_size in *. rewrite length_insert. exact IH.
    + exact IH.
    + unfold vector_size. rewrite pool_after_grow_chunks, length_app.
      simpl. unfold vector_size. lia.
Qed.

(** X1. In every state of a pool the current chunk is the last one of the
    vector.  A call never moves the current index back and never touches a
    chunk below it; when the index moves, the vector has grown by exactly
    one chunk at its end and all older chunks, the one left behind with
    its unused tail included, are as they were. *)
Theorem current_chunk_is_last h p :
  reachable h p ->
  m_index p = vector_size (m_chunks p) - 1 /\
  (forall bytes ce q h' p',
      allocate bytes ce h p = Ret (q, h', p') ->
      m_index p <= m_index p' /\
      (forall i : nat, Z.of_nat i < m_index p ->
                       m_chunks p' !! i = m_chunks p !! i) /\
      (m_index p' <> m_index p ->
       m_index p' = m_index p + 1 /\
       exists c', m_chunks p' = m_chunks p ++ [c'])).
Proof.
  intros Hr. pose proof (reachable_index_last _ _ Hr) as Hlast.
  split; [exact Hlast |].
  intros bytes ce q h' p' E.
  destruct (allocate_Ret_cases _ _ _ _ _ _ _ (reachable_wf _ _ Hr) E)
    as (c & b & Hc & Hp & [(_ & _ & _ & ->)
                          | [(_ & _ & _ & _ & ->) | (_ & _ & _ & _ & ->)]]).
  - simpl. split; [lia |]. split; [| intros Hne; congruence].
    intros i Hi. apply list_lookup_insert_ne. lia.
  - split; [lia |]. split; [reflexivity | intros Hne; congruence].
  - split; [simpl; lia |]. split.
    + intros i Hi. rewrite pool_after_grow_chunks.
      apply lookup_app_l. unfold vector_size in *. lia.
    + intros _. split; [simpl; lia |].
      eexists. apply pool_after_grow_chunks.
Qed.

Lemma current_chunk_is_last_witness :
  reachable (heap_after_new 65536 heap0) (single_chunk_pool 0 0 65536 true) /\
  m_index (single_chunk_pool 0 0 65536 true)
    = vector_size (m_chunks (single_chunk_pool 0 0 65536 true)) - 1 /\
  exists p',
    allocate 524296 true (heap_after_new 65536 heap0)
             (single_chunk_pool 0 0 65536 true)
      = Ret (Ptr 1 0, heap_after_new 65537 (heap_after_new 65536 heap0), p') /\
    m_index p' = 1 /\
    exists c', m_chunks p' = m_chunks (single_chunk_pool 0 0 65536 true) ++ [c'].
Proof.
  assert (Hr : reachable (heap_after_new 65536 heap0)
                         (single_chunk_pool 0 0 65536 true)).
  { apply (reach_ctor {| pool_size := 128; can_expand := true |} heap0).
    reflexivity. }
  destruct (current_chunk_is_last _ _ Hr) as [Hlast Hstep].
  split; [exact Hr |]. split; [exact Hlast |].
  eexists. split; [reflexivity |].
  destruct (Hstep 524296 true _ _ _ eq_refl) as (_ & _ & Hgrow).
  destruct Hgrow as [Hidx Hc]; [discriminate |].
  split; [exact Hidx | exact Hc].
Defined.

(** ** How a call can fail *)

(** X2. In every state of a pool a call never runs into undefined
    behaviour (no index out of range, no arithmetic on a null buffer).  It
    throws exactly when growth is allowed, the request does not fit the
    current chunk and [new] or [push_back] fails; with growth off it always
    returns, and touches neither the free store nor the chunk count. *)
Theorem allocate_failure_modes bytes ce h p c :
  reachable h p ->
  m_chunks p !! Z.to_nat (m_index p) = Some c ->
  allocate bytes ce h p <> Undef /\
  (allocate bytes ce h p = Throw <->
   ce = true /\ size c - wmark c < slot_count bytes /\
   (avail h < expand_len bytes \/
    vector_max_size <= vector_size (m_chunks p))) /\
  exists q p',
    allocate bytes false h p = Ret (q, h, p') /\
    length (m_chunks p') = length (m_chunks p) /\
    (q = nullptr <-> size c - wmark c < slot_count bytes).
Proof.
  intros Hr Hc. pose proof (reachable_wf _ _ Hr) as Hwf.
  split; [apply allocate_defined; exact Hwf |].
  destruct Hwf as [Hi [Hok _]].
  destruct (Hok _ _ Hc) as (b & Hp & _ & Hw & Hs).
  pose proof (slot_count_bounds bytes) as Hn.
  assert (Hm : 2 ^ 61 + 2 ^ 61 < SizeT.modulus) by reflexivity.
  destruct (Z.le_gt_cases (wmark c + slot_count bytes) (size c)) as [Hfit | Hno].
  - split.
    + rewrite (allocate_fit bytes ce h p c b 0) by (auto; lia).
      split; [discriminate | intros (_ & Hlt & _); lia].
    + exists (Ptr b (wmark c)), (pool_after_bump (slot_count bytes) c p).
      rewrite (allocate_fit bytes false h p c b 0) by (auto; lia).
      split; [reflexivity |]. split; [apply length_insert |].
      split; [discriminate | lia].
  - split.
    + destruct ce.
      * rewrite (allocate_grow bytes h p c) by (auto; lia).
        destruct (Z.leb_spec (expand_len bytes) (avail h));
          destruct (Z.ltb_spec (vector_size (m_chunks p)) vector_max_size);
          simpl; (split; [intros Ht | intros (_ & _ & Hor)]);
          first [ discriminate Ht | reflexivity | lia
                | split; [reflexivity | lia] ].
      * rewrite (allocate_refused bytes h p c) by (auto; lia).
        split; [discriminate | intros (? & _); discriminate].
    + exists nullptr, p.
      rewrite (allocate_refused bytes h p c) by (auto; lia).
      split; [reflexivity |]. split; [reflexivity |].
      split; [lia | reflexivity].
Qed.

Lemma allocate_failure_modes_witness :
  reachable {| blocks := [65536]; avail := 0 |}
            (single_chunk_pool 0 0 65536 true) /\
  allocate 524296 true {| blocks := [65536]; avail := 0 |}
           (single_chunk_pool 0 0 65536 true) = Throw /\
  exists q p',
    allocate 524296 false {| blocks := [65536]; avail := 0 |}
             (single_chunk_pool 0 0 65536 true)
      = Ret (q, {| blocks := [65536]; avail := 0 |}, p') /\
    q = nullptr.
Proof.
  assert (Hr : reachable {| blocks := [65536]; avail := 0 |}
                         (single_chunk_pool 0 0 65536 true)).
  { apply (reach_ctor {| pool_size := 128; can_expand := true |}
                      {| blocks := []; avail := 65536 |}).
    reflexivity. }
  destruct (allocate_failure_modes 524296 true _ _ _ Hr eq_refl)
    as (_ & Hthrow & q & p' & E & _ & Hnull).
  split; [exact Hr |]. split.
  - apply Hthrow. split; [reflexivity |]. split; [reflexivity |].
    left. reflexivity.
  - exists q, p'. split; [exact E |]. apply Hnull. reflexivity.
Defined.

(** ** Bounds of what is handed out *)

(** X3. Every pointer a call returns is either null, and then growth is
    off and the request did not fit, or it points into a live array of the
    free store owned by a chunk of the pool, with the [slot_count bytes]
    slots from it on inside that array and ending at that chunk's new water
    mark; for a request of at most [2^64 - 8] bytes those slots hold all
    requested bytes. *)
Theorem returned_pointer_in_bounds bytes ce h p q h' p' :
  reachable h p ->
  allocate bytes ce h p = Ret (q, h', p') ->
  (q = nullptr /\ ce = false) \/
  exists b off c,
    q = Ptr b off /\
    In c (m_chunks p') /\ ptr c = Ptr b 0 /\
    blocks h' !! b = Some (size c) /\
    0 <= off /\ wmark c = off + slot_count bytes /\ wmark c <= size c /\
    (0 <= bytes <= 2 ^ 64 - 8 ->
     sizeof_uint64 * off + bytes <= sizeof_uint64 * size c).
Proof.
  intros Hr E. pose proof (reachable_wf _ _ Hr) as Hwf.
  destruct (allocate_preserves _ _ _ _ _ _ _ Hwf E) as [Hwf' _].
  pose proof (slot_count_bounds bytes) as Hn.
  destruct (allocate_Ret_cases _ _ _ _ _ _ _ Hwf E)
    as (c & b & Hc & Hp & [(Hfit & -> & -> & ->)
                          | [(_ & -> & -> & _ & _) | (_ & _ & -> & -> & ->)]]).
  - right.
    destruct Hwf as [_ [Hok _]].
    destruct (Hok _ _ Hc) as (b0 & Hp0 & Hb & Hw & _).
    assert (b0 = b) as -> by congruence.
    exists b, (wmark c),
      {| ptr := ptr c; wmark := wmark c + slot_count bytes; size := size c |}.
    split; [reflexivity |]. split.
    { apply list_elem_of_In. eapply list_elem_of_lookup_2.
      simpl. apply list_lookup_insert_eq. eapply lookup_lt_Some; eauto. }
    simpl. repeat split; auto; try lia.
    intros Hb8. pose proof (slot_count_covers bytes Hb8).
    unfold sizeof_uint64. lia.
  - left. auto.
  - right.
    exists (length (blocks h)), 0,
      {| ptr := Ptr (length (blocks h)) 0; wmark := slot_count bytes;
         size := expand_len bytes |}.
    pose proof (expand_len_fits bytes).
    split; [reflexivity |]. split.
    { apply list_elem_of_In. rewrite pool_after_grow_chunks.
      apply elem_of_app. right. apply list_elem_of_singleton. reflexivity. }
    simpl. split; [reflexivity |]. split.
    { rewrite lookup_app_r by lia. rewrite Nat.sub_diag. reflexivity. }
    repeat split; auto; try lia.
    intros Hb8. pose proof (slot_count_covers bytes Hb8).
    unfold sizeof_uint64. lia.
Qed.

Lemma returned_pointer_in_bounds_witness :
  reachable (heap_after_new 65536 heap0) (single_chunk_pool 0 0 65536 true) /\
  allocate 100 true (heap_after_new 65536 heap0)
           (single_chunk_pool 0 0 65536 true)
    = Ret (Ptr 0 0, heap_after_new 65536 heap0,
           single_chunk_pool 0 13 65536 true) /\
  ((Ptr 0 0 = nullptr /\ true = false) \/
   exists b off c,
     Ptr 0 0 = Ptr b off /\
     In c (m_chunks (single_chunk_pool 0 13 65536 true)) /\ ptr c = Ptr b 0 /\
     blocks (heap_after_new 65536 heap0) !! b = Some (size c) /\
     0 <= off /\ wmark c = off + slot_count 100 /\ wmark c <= size c /\
     (0 <= 100 <= 2 ^ 64 - 8 ->
      sizeof_uint64 * off + 100 <= sizeof_uint64 * size c)).
Proof.
  assert (Hr : reachable (heap_after_new 65536 heap0)
                         (single_chunk_pool 0 0 65536 true)).
  { apply (reach_ctor {| pool_size := 128; can_expand := true |} heap0).
    reflexivity. }
  split; [exact Hr |]. split; [reflexivity |].
  apply (returned_pointer_in_bounds 100 true _ _ _ _ _ Hr). reflexivity.
Defined.

(** ** Teardown *)

Lemma chunks_wf_tail h c v : chunks_wf h (c :: v) -> chunks_wf h v.
Proof.
  intros [Hok Hdis]. split.
  - intros i ci Hi. apply (Hok (S i) ci). exact Hi.
  - intros i j ci cj Hi Hj Heq.
    assert (S i = S j) by (apply (Hdis (S i) (S j) ci cj); auto). lia.
Qed.

Lemma chunks_wf_head_fresh h c v b :
  chunks_wf h (c :: v) -> ptr c = Ptr b 0 ->
  ~ elem_of b (omap chunk_block v).
Proof.
  intros [Hok Hdis] Hp Hin.
  apply list_elem_of_omap in Hin as (ci & Hci & Hbi).
  apply list_elem_of_lookup in Hci as [i Hi].
  destruct (Hok (S i) ci Hi) as (b' & Hp' & _).
  unfold chunk_block in Hbi. rewrite Hp' in Hbi. inversion Hbi; subst b'.
  assert (0%nat = S i) by (apply (Hdis 0%nat (S i) c ci); auto; congruence).
  discriminate.
Qed.

Lemma delete_chunks_wf h v :
  forall freed,
    chunks_wf h v ->
    (forall b, elem_of b (omap chunk_block v) -> ~ elem_of b freed) ->
    delete_chunks v h freed = Ret (rev (omap chunk_block v) ++ freed) /\
    NoDup (omap chunk_block v) /\
    length (omap chunk_block v) = length v.
Proof.
  induction v as [| c v IH]; intros freed Hwf Hfresh.
  - simpl. split; [reflexivity |]. split; [constructor | reflexivity].
  - destruct (proj1 Hwf 0%nat c eq_refl) as (b & Hp & Hb & _).
    assert (Hcb : chunk_block c = Some b) by (unfold chunk_block; rewrite Hp; reflexivity).
    pose proof (chunks_wf_head_fresh _ _ _ _ Hwf Hp) as Hnew.
    destruct (IH (b :: freed) (chunks_wf_tail _ _ _ Hwf)) as (E & Hnd & Hlen).
    { intros b' Hb' Hin. apply elem_of_cons in Hin as [-> | Hin].
      - contradiction.
      - apply (Hfresh b'); [| exact Hin].
        simpl. rewrite Hcb. apply elem_of_cons. right. exact Hb'. }
    cbn [delete_chunks omap list_omap]. rewrite Hcb, Hp.
    unfold delete_array. cbn [Z.eqb andb].
    apply lookup_lt_Some in Hb.
    rewrite bool_decide_eq_true_2 by exact Hb.
    rewrite bool_decide_eq_false_2.
    2: { apply Hfresh. simpl. rewrite Hcb. apply elem_of_cons. left. reflexivity. }
    cbn [negb andb bind]. rewrite E.
    split; [simpl; rewrite <- app_assoc; reflexivity |].
    split; [apply NoDup_cons; auto | simpl; lia].
Qed.

(** X4. Teardown: in every state of a pool whose buffers have not been
    released yet, the destructor runs without undefined behaviour, hands
    each chunk's array back exactly once (one array per chunk, no array
    twice, last chunk first in the record) and leaves the vector empty. *)
Theorem destructor_releases_each_buffer_once h p :
  reachable h p ->
  MemoryPoolImpl_dtor h [] p =
    Ret (rev (omap chunk_block (m_chunks p)),
         {| m_chunks := []; m_index := m_index p;
            m_can_expand := m_can_expand p |}) /\
  NoDup (omap chunk_block (m_chunks p)) /\
  length (omap chunk_block (m_chunks p)) = length (m_chunks p) /\
  Forall (fun b => is_Some (blocks h !! b)) (omap chunk_block (m_chunks p)).
Proof.
  intros Hr. destruct (reachable_wf _ _ Hr) as [_ Hwf].
  destruct (delete_chunks_wf h (m_chunks p) [] Hwf) as (E & Hnd & Hlen).
  { intros b _ Hin. apply elem_of_nil in Hin. exact Hin. }
  split.
  - unfold MemoryPoolImpl_dtor. rewrite E. cbn [bind].
    rewrite app_nil_r. reflexivity.
  - split; [exact Hnd |]. split; [exact Hlen |].
    apply Forall_forall. intros b Hin.
    apply list_elem_of_omap in Hin as (c & Hc & Hb).
    apply list_elem_of_lookup in Hc as [i Hi].
    destruct (proj1 Hwf i c Hi) as (b' & Hp' & Hlk & _).
    unfold chunk_block in Hb. rewrite Hp' in Hb. inversion Hb; subst b'.
    eauto.
Qed.

Lemma destructor_releases_each_buffer_once_witness :
  reachable (heap_after_new 65537 (heap_after_new 65536 heap0))
            {| m_chunks := [{| ptr := Ptr 0 0; wmark := 0; size := 65536 |};
                            {| ptr := Ptr 1 0; wmark := 65537; size := 65537 |}];
               m_index := 1; m_can_expand := true |} /\
  MemoryPoolImpl_dtor (heap_after_new 65537 (heap_after_new 65536 heap0)) []
    {| m_chunks := [{| ptr := Ptr 0 0; wmark := 0; size := 65536 |};
                    {| ptr := Ptr 1 0; wmark := 65537; size := 65537 |}];
       m_index := 1; m_can_expand := true |}
  = Ret ([1%nat; 0%nat],
         {| m_chunks := []; m_index := 1; m_can_expand := true |}).
Proof.
  assert (Hr : reachable (heap_after_new 65537 (heap_after_new 65536 heap0))
            {| m_chunks := [{| ptr := Ptr 0 0; wmark := 0; size := 65536 |};
                            {| ptr := Ptr 1 0; wmark := 65537; size := 65537 |}];
               m_index := 1; m_can_expand := true |}).
  { apply (reach_allocate 524296 true (heap_after_new 65536 heap0)
             (single_chunk_pool 0 0 65536 true) (Ptr 1 0)).
    - apply (reach_ctor {| pool_size := 128; can_expand := true |} heap0).
      reflexivity.
    - reflexivity. }
  split; [exact Hr |].
  exact (proj1 (destructor_releases_each_buffer_once _ _ Hr)).
Defined.

(** ** Chunks left behind *)

Lemma allocate_all_behind reqs :
  forall h p qs h' p',
    reachable h p ->
    allocate_all reqs h p = Ret (qs, h', p') ->
    reachable h' p' /\
    m_index p <= m_index p' /\
    (forall i : nat, Z.of_nat i < m_index p ->
                     m_chunks p' !! i = m_chunks p !! i) /\
    Forall (fun q => forall (i : nat) c b off,
                Z.of_nat i < m_index p -> m_chunks p !! i = Some c ->
                ptr c = Ptr b 0 -> q <> Ptr b off) qs.
Proof.
  induction reqs as [| bytes rest IH]; intros h p qs h' p' Hr E.
  - simpl in E. inversion E; subst.
    split; [exact Hr |]. split; [lia |]. split; [reflexivity | constructor].
  - apply allocate_all_cons in E as (q & h1 & p1 & qs' & E1 & E2 & ->).
    unfold MemoryPool_allocate in E1.
    assert (Hr1 : reachable h1 p1) by (eapply reach_allocate; eauto).
    destruct (IH _ _ _ _ _ Hr1 E2) as (Hr' & Hidx' & Hsame' & Hqs').
    pose proof (reachable_wf _ _ Hr) as Hwf.
    assert (Hstep : m_index p <= m_index p1 /\
                    (forall i : nat, Z.of_nat i < m_index p ->
                                     m_chunks p1 !! i = m_chunks p !! i) /\
                    (forall (i : nat) c b off,
                        Z.of_nat i < m_index p -> m_chunks p !! i = Some c ->
                        ptr c = Ptr b 0 -> q <> Ptr b off)).
    { destruct (allocate_Ret_cases _ _ _ _ _ _ _ Hwf E1)
        as (c & b & Hc & Hp & [(_ & -> & _ & ->)
                              | [(_ & _ & -> & _ & ->) | (_ & _ & -> & _ & ->)]]).
      - simpl. split; [lia |]. split.
        + intros i Hi. apply list_lookup_insert_ne. lia.
        + intros i ci bi off Hi Hci Hpi Heq. inversion Heq; subst bi.
          destruct Hwf as [_ [_ Hdis]].
          assert (i = Z.to_nat (m_index p))
            by (eapply Hdis; eauto; congruence).
          lia.
      - split; [lia |]. split; [reflexivity |]. intros; discriminate.
      - pose proof (proj1 Hwf) as Hi'. unfold vector_size in Hi'.
        split; [simpl; unfold vector_size; lia |]. split.
        + intros i Hi. rewrite pool_after_grow_chunks. apply lookup_app_l. lia.
        + intros i ci bi off Hi Hci Hpi Heq. inversion Heq; subst bi.
          destruct Hwf as [_ [Hok _]].
          destruct (Hok _ _ Hci) as (b' & Hp' & Hlk & _).
          apply lookup_lt_Some in Hlk. rewrite Hp' in Hpi.
          inversion Hpi. lia. }
    destruct Hstep as (Hidx & Hsame & Hq).
    split; [exact Hr' |]. split; [lia |]. split.
    + intros i Hi. rewrite Hsame' by lia. apply Hsame. exact Hi.
    + constructor; [exact Hq |].
      eapply Forall_impl; [exact Hqs' |]. simpl.
      intros q' Hq' i c b off Hi Hc Hp.
      apply (Hq' i c b off); [lia | rewrite Hsame by exact Hi; exact Hc | exact Hp].
Qed.

(** X5. A chunk below the current one is never used again: whatever run
    of requests follows, its water mark, buffer and capacity stay as they
    are and no returned pointer lies in its array, so the slots above its
    mark are lost for the lifetime of the pool. *)
Theorem abandoned_chunks_stay_unused h p reqs qs h' p' :
  reachable h p ->
  allocate_all reqs h p = Ret (qs, h', p') ->
  forall (i : nat) c,
    Z.of_nat i < m_index p -> m_chunks p !! i = Some c ->
    m_chunks p' !! i = Some c /\
    exists b, ptr c = Ptr b 0 /\
              Forall (fun q => forall off, q <> Ptr b off) qs.
Proof.
  intros Hr E i c Hi Hc.
  destruct (allocate_all_behind reqs _ _ _ _ _ Hr E) as (_ & _ & Hsame & Hqs).
  split; [rewrite Hsame by exact Hi; exact Hc |].
  destruct (reachable_wf _ _ Hr) as [_ [Hok _]].
  destruct (Hok _ _ Hc) as (b & Hp & _).
  exists b. split; [exact Hp |].
  eapply Forall_impl; [exact Hqs |]. simpl. intros q Hq off.
  apply (Hq i c b off); assumption.
Qed.

Lemma abandoned_chunks_stay_unused_witness :
  reachable (heap_after_new 65537 (heap_after_new 65536 heap0))
            {| m_chunks := [{| ptr := Ptr 0 0; wmark := 0; size := 65536 |};
                            {| ptr := Ptr 1 0; wmark := 65537; size := 65537 |}];
               m_index := 1; m_can_expand := true |} /\
  exists qs h' p',
    allocate_all [8; 16]
      (heap_after_new 65537 (heap_after_new 65536 heap0))
      {| m_chunks := [{| ptr := Ptr 0 0; wmark := 0; size := 65536 |};
                      {| ptr := Ptr 1 0; wmark := 65537; size := 65537 |}];
         m_index := 1; m_can_expand := true |}
      = Ret (qs, h', p') /\
    m_chunks p' !! 0%nat = Some {| ptr := Ptr 0 0; wmark := 0; size := 65536 |} /\
    exists b, Ptr 0 0 = Ptr b 0 /\
              Forall (fun q => forall off, q <> Ptr b off) qs.
Proof.
  assert (Hr : reachable (heap_after_new 65537 (heap_after_new 65536 heap0))
            {| m_chunks := [{| ptr := Ptr 0 0; wmark := 0; size := 65536 |};
                            {| ptr := Ptr 1 0; wmark := 65537; size := 65537 |}];
               m_index := 1; m_can_expand := true |}).
  { apply (reach_allocate 524296 true (heap_after_new 65536 heap0)
             (single_chunk_pool 0 0 65536 true) (Ptr 1 0)).
    - apply (reach_ctor {| pool_size := 128; can_expand := true |} heap0).
      reflexivity.
    - reflexivity. }
  split; [exact Hr |].
  eexists _, _, _. split; [reflexivity |].
  apply (abandoned_chunks_stay_unused _ _ [8; 16] _ _ _ Hr eq_refl 0%nat);
    reflexivity.
Defined.

(** ** The pre-growing constructor *)

(** X6. [MemoryPool(size_t bytes)] runs the default constructor and then
    [expand(bytes)]: it throws unless the free store provides both arrays,
    and otherwise leaves two empty chunks, of [max (slot_count pool_size)
    65536] and [max (slot_count bytes) 65536] slots, the second one
    current; the chunk made for [pool_size] is never allocated from in
    whatever run follows. *)
Theorem pre_grown_pool cfg bytes h0 :
  let len0 := Z.max (slot_count (pool_size cfg)) 65536 in
  let len1 := Z.max (slot_count bytes) 65536 in
  let b0 := length (blocks h0) in
  let c0 := {| ptr := Ptr b0 0; wmark := 0; size := len0 |} in
  let c1 := {| ptr := Ptr (S b0) 0; wmark := 0; size := len1 |} in
  let h := heap_after_new len1 (heap_after_new len0 h0) in
  let p := {| m_chunks := [c0; c1]; m_index := 1;
              m_can_expand := can_expand cfg |} in
  MemoryPool_ctor_bytes cfg bytes h0 =
    (if len0 + len1 <=? avail h0 then Ret (h, p) else Throw) /\
  (len0 + len1 <= avail h0 ->
   reachable h p /\
   forall reqs qs h' p',
     allocate_all reqs h p = Ret (qs, h', p') ->
     m_chunks p' !! 0%nat = Some c0 /\
     Forall (fun q => forall off, q <> Ptr b0 off) qs).
Proof.
  intros len0 len1 b0 c0 c1 h p.
  assert (Hlen0 : 65536 <= len0) by (subst len0; lia).
  assert (Hlen1 : 65536 <= len1) by (subst len1; lia).
  assert (E : MemoryPool_ctor_bytes cfg bytes h0 =
              (if len0 + len1 <=? avail h0 then Ret (h, p) else Throw)).
  { unfold MemoryPool_ctor_bytes.
    change (MemoryPoolImpl_ctor cfg h0) with (MemoryPool_ctor cfg h0).
    rewrite ctor_outcome.
    change (expand_len (pool_size cfg)) with len0. fold b0.
    destruct (Z.leb_spec len0 (avail h0)) as [H0 | H0]; cbn [bind].
    - rewrite expand_outcome. change (expand_len bytes) with len1.
      change (vector_size (m_chunks (single_chunk_pool b0 0 len0 (can_expand cfg)))
              <? vector_max_size) with true.
      rewrite andb_true_r. cbn [avail heap_after_new].
      destruct (Z.leb_spec len1 (avail h0 - len0));
        destruct (Z.leb_spec (len0 + len1) (avail h0)); try lia; [| reflexivity].
      f_equal. f_equal. unfold pool_after_expand, fresh_chunk. simpl.
      unfold p, c0, c1, b0.
      replace (length (blocks h0 ++ [len0])) with (S (length (blocks h0)))
        by (rewrite length_app; simpl; lia).
      reflexivity.
    - destruct (Z.leb_spec (len0 + len1) (avail h0)); [lia | reflexivity]. }
  split; [exact E |].
  intros Hroom. apply Z.leb_le in Hroom. rewrite Hroom in E.
  pose proof (ctor_bytes_reachable _ _ _ _ _ E) as Hr.
  split; [exact Hr |].
  intros reqs qs h' p' Erun.
  destruct (allocate_all_behind reqs _ _ _ _ _ Hr Erun) as (_ & _ & Hsame & Hqs).
  split; [rewrite Hsame; [reflexivity | simpl; lia] |].
  eapply Forall_impl; [exact Hqs |]. simpl. intros q Hq off.
  apply (Hq 0%nat c0 b0 off); [simpl; lia | reflexivity | reflexivity].
Qed.

Lemma pre_grown_pool_witness :
  MemoryPool_ctor_bytes default_config (1024 * 1024) heap0 =
    Ret (heap_after_new 131072 (heap_after_new 262144 heap0),
         {| m_chunks := [{| ptr := Ptr 0 0; wmark := 0; size := 262144 |};
                         {| ptr := Ptr 1 0; wmark := 0; size := 131072 |}];
            m_index := 1; m_can_expand := true |}) /\
  forall reqs qs h' p',
    allocate_all reqs (heap_after_new 131072 (heap_after_new 262144 heap0))
      {| m_chunks := [{| ptr := Ptr 0 0; wmark := 0; size := 262144 |};
                      {| ptr := Ptr 1 0; wmark := 0; size := 131072 |}];
         m_index := 1; m_can_expand := true |} = Ret (qs, h', p') ->
    m_chunks p' !! 0%nat = Some {| ptr := Ptr 0 0; wmark := 0; size := 262144 |} /\
    Forall (fun q => forall off, q <> Ptr 0 off) qs.
Proof.
  destruct (pre_grown_pool default_config (1024 * 1024) heap0) as [E H].
  split; [exact E |].
  apply H. discriminate.
Defined.

(** ** Capacity of the chunks *)

Lemma reachable_min_capacity h p :
  reachable h p ->
  forall (i : nat) c, m_chunks p !! i = Some c -> chunksize <= size c.
Proof.
  induction 1 as [cfg h0 h p E | bytes h p h' p' Hr IH E
                 | bytes ce h p q h' p' Hr IH E]; intros i ci Hi.
  - unfold MemoryPoolImpl_ctor in E.
    apply expand_Ret in E as (_ & _ & _ & ->). simpl in Hi.
    apply list_lookup_singleton_Some in Hi as [_ <-]. simpl.
    apply expand_len_bounds.
  - apply expand_Ret in E as (_ & _ & _ & ->). simpl in Hi.
    apply lookup_snoc_Some in Hi as [[_ Hi] | [_ <-]]; [eauto |].
    simpl. apply expand_len_bounds.
  - destruct (allocate_Ret_cases _ _ _ _ _ _ _ (reachable_wf _ _ Hr) E)
      as (c & b & Hc & Hp & [(_ & _ & _ & ->)
                            | [(_ & _ & _ & _ & ->) | (_ & _ & _ & _ & ->)]]).
    + simpl in Hi.
      apply list_lookup_insert_Some in Hi as [(_ & <- & _) | [_ Hi]]; simpl; eauto.
    + eauto.
    + rewrite pool_after_grow_chunks in Hi.
      apply lookup_snoc_Some in Hi as [[_ Hi] | [_ <-]]; [eauto |].
      simpl. apply expand_len_bounds.
Qed.

(** X7. In every state of a pool each chunk owns a live array of exactly
    [size] elements, and [65536 <= size < 2^61]: however small the request
    that created it, a chunk holds at least 512 KiB, and the byte size
    [8 * size] that [new] computes stays below [2^64]. *)
Theorem chunk_capacity_bounds h p (i : nat) c :
  reachable h p ->
  m_chunks p !! i = Some c ->
  65536 <= size c < 2 ^ 61 /\
  sizeof_uint64 * size c < 2 ^ 64 /\
  exists b, ptr c = Ptr b 0 /\ blocks h !! b = Some (size c).
Proof.
  intros Hr Hc.
  pose proof (reachable_min_capacity _ _ Hr _ _ Hc) as Hmin.
  destruct (reachable_wf _ _ Hr) as [_ [Hok _]].
  destruct (Hok _ _ Hc) as (b & Hp & Hb & _ & Hs).
  change chunksize with 65536 in Hmin.
  split; [lia |]. split.
  - unfold sizeof_uint64. change (2 ^ 64) with (8 * 2 ^ 61). lia.
  - exists b. auto.
Qed.

Lemma chunk_capacity_bounds_witness :
  reachable (heap_after_new 65536 heap0) (single_chunk_pool 0 0 65536 false) /\
  65536 <= 65536 < 2 ^ 61 /\
  sizeof_uint64 * 65536 < 2 ^ 64 /\
  exists b, Ptr 0 0 = Ptr b 0 /\
            blocks (heap_after_new 65536 heap0) !! b = Some 65536.
Proof.
  assert (Hr : reachable (heap_after_new 65536 heap0)
                         (single_chunk_pool 0 0 65536 false)).
  { apply (reach_ctor config_A heap0). reflexivity. }
  split; [exact Hr |].
  exact (chunk_capacity_bounds _ _ 0%nat
           {| ptr := Ptr 0 0; wmark := 0; size := 65536 |} Hr eq_refl).
Defined.

(** ** The lock around a call *)

Lemma allocate_without_growth_returns bytes h p :
  pool_wf h p -> exists q p', allocate bytes false h p = Ret (q, h, p').
Proof.
  intros Hwf.
  destruct (pool_wf_current _ _ Hwf) as (c & Hc & b & Hp & _ & Hw & Hs).
  destruct Hwf as [Hi _].
  pose proof (slot_count_bounds bytes) as Hn.
  assert (Hm : 2 ^ 61 + 2 ^ 61 < SizeT.modulus) by reflexivity.
  destruct (Z.le_gt_cases (wmark c + slot_count bytes) (size c)) as [Hfit | Hno].
  - rewrite (allocate_fit bytes false h p c b 0) by (auto; lia). eauto.
  - rewrite (allocate_refused bytes h p c) by (auto; lia). eauto.
Qed.

(** X8. The public [allocate] always takes the lock first, and releases
    it exactly when the allocation returns (with a pointer or with null).
    With [can_expand] off that is every call; with it on, a call whose
    growth fails leaves by the exception with the lock still held.  The
    result itself is that of the allocation. *)
Theorem lock_released_iff_returns bytes h p :
  reachable h p ->
  snd (MemoryPool_allocate_locked bytes h p) = MemoryPool_allocate bytes h p /\
  (fst (MemoryPool_allocate_locked bytes h p) = [WLock; Unlock] <->
   exists r, MemoryPool_allocate bytes h p = Ret r) /\
  (MemoryPool_allocate bytes h p = Throw ->
   fst (MemoryPool_allocate_locked bytes h p) = [WLock]) /\
  (m_can_expand p = false ->
   fst (MemoryPool_allocate_locked bytes h p) = [WLock; Unlock]).
Proof.
  intros Hr. pose proof (reachable_wf _ _ Hr) as Hwf.
  unfold MemoryPool_allocate_locked, MemoryPool_allocate.
  split; [destruct (allocate bytes (m_can_expand p) h p); reflexivity |].
  split.
  { destruct (allocate bytes (m_can_expand p) h p) as [r | | ]; simpl; split;
      try discriminate; eauto; intros [r' Hr']; discriminate. }
  split.
  { intros E. rewrite E. reflexivity. }
  intros Hce. rewrite Hce.
  destruct (allocate_without_growth_returns bytes h p Hwf) as (q & p' & E).
  rewrite E. reflexivity.
Qed.

Lemma lock_released_iff_returns_witness :
  reachable {| blocks := [65536]; avail := 0 |}
            (single_chunk_pool 0 0 65536 true) /\
  MemoryPool_allocate_locked 64 {| blocks := [65536]; avail := 0 |}
                             (single_chunk_pool 0 0 65536 true)
    = ([WLock; Unlock],
       Ret (Ptr 0 0, {| blocks := [65536]; avail := 0 |},
            single_chunk_pool 0 8 65536 true)) /\
  fst (MemoryPool_allocate_locked 524296 {| blocks := [65536]; avail := 0 |}
                                  (single_chunk_pool 0 0 65536 true))
    = [WLock].
Proof.
  assert (Hr : reachable {| blocks := [65536]; avail := 0 |}
                         (single_chunk_pool 0 0 65536 true)).
  { apply (reach_ctor {| pool_size := 128; can_expand := true |}
                      {| blocks := []; avail := 65536 |}).
    reflexivity. }
  split; [exact Hr |]. split; [reflexivity |].
  destruct (lock_released_iff_returns 524296 _ _ Hr) as (_ & _ & Hthrow & _).
  apply Hthrow. reflexivity.
Defined.

(** ** Consecutive calls *)

(** X9. Allocations are packed back to back: when two requests in a row
    both fit the current chunk, the second pointer is the first one plus
    exactly [slot_count] of the first request, the chunk's mark ends at the
    sum, and nothing else changes.  For a first request of at most
    [2^64 - 8] bytes the gap between the two addresses is the request
    rounded up to whole words. *)
Theorem consecutive_allocations_adjacent bytes1 bytes2 h p c :
  reachable h p ->
  m_chunks p !! Z.to_nat (m_index p) = Some c ->
  slot_count bytes1 + slot_count bytes2 <= size c - wmark c ->
  exists b p',
    ptr c = Ptr b 0 /\
    allocate_all [bytes1; bytes2] h p =
      Ret ([Ptr b (wmark c); Ptr b (wmark c + slot_count bytes1)], h, p') /\
    m_chunks p' =
      <[Z.to_nat (m_index p) :=
          {| ptr := ptr c;
             wmark := wmark c + slot_count bytes1 + slot_count bytes2;
             size := size c |}]> (m_chunks p) /\
    m_index p' = m_index p /\
    (0 <= bytes1 <= 2 ^ 64 - 8 ->
     forall base,
       address base (Ptr b (wmark c + slot_count bytes1))
       - address base (Ptr b (wmark c)) = round_up_word bytes1).
Proof.
  intros Hr Hc Hfit.
  destruct (reachable_wf _ _ Hr) as [Hi [Hok _]].
  destruct (Hok _ _ Hc) as (b & Hp & _ & Hw & Hs).
  pose proof (slot_count_bounds bytes1) as Hn1.
  pose proof (slot_count_bounds bytes2) as Hn2.
  assert (Hm : 2 ^ 61 < SizeT.modulus) by reflexivity.
  set (c1 := {| ptr := ptr c; wmark := wmark c + slot_count bytes1;
                size := size c |}).
  set (p1 := pool_after_bump (slot_count bytes1) c p).
  assert (Hc1 : m_chunks p1 !! Z.to_nat (m_index p1) = Some c1)
    by (apply current_after_bump; exact Hc).
  exists b, (pool_after_bump (slot_count bytes2) c1 p1).
  split; [exact Hp |]. split.
  - cbn [allocate_all]. unfold MemoryPool_allocate.
    rewrite (allocate_fit bytes1 (m_can_expand p) h p c b 0) by (auto; lia).
    cbn [bind]. fold p1.
    rewrite (allocate_fit bytes2 (m_can_expand p1) h p1 c1 b 0)
      by (simpl; auto; lia).
    reflexivity.
  - split; [| split; [reflexivity |]].
    + simpl. rewrite list_insert_insert_eq. reflexivity.
    + intros Hb base. rewrite round_up_word_slots by exact Hb.
      unfold address, sizeof_uint64. lia.
Qed.

Lemma consecutive_allocations_adjacent_witness :
  reachable (heap_after_new 65536 heap0) (single_chunk_pool 0 0 65536 false) /\
  exists b p',
    Ptr 0 0 = Ptr b 0 /\
    allocate_all [13; 64] (heap_after_new 65536 heap0)
                 (single_chunk_pool 0 0 65536 false)
      = Ret ([Ptr b 0; Ptr b (0 + slot_count 13)],
             heap_after_new 65536 heap0, p') /\
    m_chunks p' = [{| ptr := Ptr 0 0; wmark := 0 + slot_count 13 + slot_count 64;
                      size := 65536 |}] /\
    m_index p' = 0 /\
    (0 <= 13 <= 2 ^ 64 - 8 ->
     forall base,
       address base (Ptr b (0 + slot_count 13))
       - address base (Ptr b 0) = round_up_word 13).
Proof.
  assert (Hr : reachable (heap_after_new 65536 heap0)
                         (single_chunk_pool 0 0 65536 false)).
  { apply (reach_ctor config_A heap0). reflexivity. }
  split; [exact Hr |].
  apply (consecutive_allocations_adjacent 13 64 _ _
           {| ptr := Ptr 0 0; wmark := 0; size := 65536 |} Hr eq_refl).
  vm_compute. discriminate.
Defined.

(** ** Padding of table cells *)

Lemma string_length_app s1 s2 :
  String.length (s1 +:+ s2) = (String.length s1 + String.length s2)%nat.
Proof. induction s1 as [| a s1 IH]; simpl; [reflexivity | rewrite IH; reflexivity]. Qed.

Lemma blanks_length n : String.length (blanks n) = n.
Proof. induction n as [| n IH]; simpl; [reflexivity | rewrite IH; reflexivity]. Qed.

Lemma string_size_put os s : string_size (put os s) = string_size os + string_size s.
Proof. unfold string_size, put. rewrite string_length_app. lia. Qed.

Lemma string_size_blanks n : string_size (blanks n) = Z.of_nat n.
Proof. unfold string_size. rewrite blanks_length. reflexivity. Qed.

(** The tail of [whitespace] that starts [m] characters before its end. *)
Lemma whitespace_tail (m : nat) :
  (m <= 120)%nat -> c_str_from whitespace (120 - Z.of_nat m) = blanks m.
Proof.
  intros Hm.
  do 121 (destruct m as [| m]; [reflexivity |]).
  lia.
Qed.

(** The pointer arithmetic on [whitespace] selects [min 120 gap] blanks. *)
Lemma whitespace_gap gap :
  0 <= gap ->
  c_str_from whitespace (SizeT.sub 120 (Z.min 120 gap))
  = blanks (Z.to_nat (Z.min 120 gap)).
Proof.
  intros Hg. unfold SizeT.sub.
  rewrite wrap_small by (unfold SizeT.modulus; lia).
  rewrite <- (whitespace_tail (Z.to_nat (Z.min 120 gap))) by lia.
  f_equal. lia.
Qed.

Lemma pad_right_blanks os str width :
  pad_right os str width =
    put (put os str)
        (blanks (Z.to_nat
           (Z.min 120 (SizeT.sub (SizeT.add 1 width) (string_size str))))).
Proof.
  unfold pad_right. rewrite whitespace_gap; [reflexivity |].
  apply wrap_range.
Qed.

Lemma pad_left_blanks os str width :
  pad_left os str width =
    put (put (put os
                (blanks (Z.to_nat
                   (Z.min 120 (SizeT.sub width (string_size str))))))
             str) " ".
Proof.
  unfold pad_left. rewrite whitespace_gap; [reflexivity |].
  apply wrap_range.
Qed.

Lemma pad_right_in_range os str width :
  0 <= width < 2 ^ 64 - 1 ->
  string_size str <= width + 1 <= string_size str + 120 ->
  pad_right os str width
    = put (put os str) (blanks (Z.to_nat (width + 1 - string_size str))).
Proof.
  intros Hw Hfit.
  assert (Hn : 0 <= string_size str) by (unfold string_size; lia).
  assert (Hgap : SizeT.sub (SizeT.add 1 width) (string_size str)
                 = width + 1 - string_size str).
  { unfold SizeT.sub, SizeT.add.
    rewrite (wrap_small (1 + width)) by (unfold SizeT.modulus; lia).
    rewrite wrap_small by (unfold SizeT.modulus; lia). lia. }
  rewrite pad_right_blanks, Hgap.
  rewrite Z.min_r by lia. reflexivity.
Qed.

(** X10. [pad_right] on a string that fits its column ([size <= width + 1
    <= size + 120]): the string is written left-aligned and followed by
    [width + 1 - size] blanks, so the cell takes exactly [width + 1]
    characters, whatever the string. *)
Theorem pad_right_fits os str width :
  0 <= width < 2 ^ 64 - 1 ->
  string_size str <= width + 1 <= string_size str + 120 ->
  pad_right os str width
    = put (put os str) (blanks (Z.to_nat (width + 1 - string_size str))) /\
  string_size (pad_right os str width) = string_size os + (width + 1).
Proof.
  intros Hw Hfit.
  assert (Hn : 0 <= string_size str) by (unfold string_size; lia).
  rewrite pad_right_in_range by assumption.
  split; [reflexivity |].
  rewrite !string_size_put, string_size_blanks. lia.
Qed.

Lemma pad_right_fits_witness :
  0 <= 6 < 2 ^ 64 - 1 /\
  string_size "Path" <= 6 + 1 <= string_size "Path" + 120 /\
  pad_right EmptyString "Path" 6 = "Path   " /\
  string_size (pad_right EmptyString "Path" 6) = string_size EmptyString + (6 + 1).
Proof.
  assert (H1 : 0 <= 6 < 2 ^ 64 - 1) by (split; [discriminate | reflexivity]).
  assert (H2 : string_size "Path" <= 6 + 1 <= string_size "Path" + 120)
    by (split; discriminate).
  split; [exact H1 |]. split; [exact H2 |].
  exact (pad_right_fits EmptyString "Path" 6 H1 H2).
Defined.

(** X11. [pad_right] outside that range never writes more than the 120
    blanks of [whitespace].  When the column is more than 120 wider than
    the string the padding stops at 120 blanks and the cell falls short of
    [width + 1]; when the string is longer than [width + 1] the unsigned
    difference [1 + width - size] wraps around and the string is followed
    by 120 blanks instead of none. *)
Theorem pad_right_out_of_range os str width :
  0 <= width < 2 ^ 64 - 1 ->
  string_size str < 2 ^ 63 ->
  string_size str + 120 < width + 1 \/ width + 1 < string_size str ->
  pad_right os str width = put (put os str) (blanks 120) /\
  string_size (pad_right os str width)
    = string_size os + string_size str + 120.
Proof.
  intros Hw Hs Hout.
  assert (Hn : 0 <= string_size str) by (unfold string_size; lia).
  assert (Hgap : 120 < SizeT.sub (SizeT.add 1 width) (string_size str)).
  { unfold SizeT.sub, SizeT.add.
    rewrite (wrap_small (1 + width)) by (unfold SizeT.modulus; lia).
    destruct Hout as [Hwide | Hlong].
    - rewrite wrap_small by (unfold SizeT.modulus; lia). lia.
    - assert (Hwrap : SizeT.wrap (1 + width - string_size str)
                      = 1 + width - string_size str + 2 ^ 64).
      { unfold SizeT.wrap, SizeT.modulus. symmetry.
        apply (Z.mod_unique_pos _ _ (-1)); lia. }
      rewrite Hwrap. lia. }
  rewrite pad_right_blanks. rewrite Z.min_l by lia.
  split; [reflexivity |].
  rewrite !string_size_put, string_size_blanks. lia.
Qed.

Lemma pad_right_out_of_range_witness :
  pad_right EmptyString "main_loop" 4
    = put (put EmptyString "main_loop") (blanks 120) /\
  string_size (pad_right EmptyString "main_loop" 4) = 129.
Proof.
  assert (H1 : 0 <= 4 < 2 ^ 64 - 1) by (split; [discriminate | reflexivity]).
  assert (H2 : string_size "main_loop" < 2 ^ 63) by reflexivity.
  assert (H3 : string_size "main_loop" + 120 < 4 + 1 \/
               4 + 1 < string_size "main_loop") by (right; reflexivity).
  exact (pad_right_out_of_range EmptyString "main_loop" 4 H1 H2 H3).
Defined.

(** X12. [pad_left] on a string that fits its column ([size <= width <=
    size + 120]): [width - size] blanks, then the string right-aligned,
    then one blank, so the cell takes exactly [width + 1] characters; for
    [width < size + 120] that is also the length of the [pad_right] cell of
    that width, so columns of either alignment line up. *)
Theorem pad_left_fits os str width :
  0 <= width < 2 ^ 64 - 1 ->
  string_size str <= width <= string_size str + 120 ->
  pad_left os str width
    = put (put (put os (blanks (Z.to_nat (width - string_size str)))) str) " " /\
  string_size (pad_left os str width) = string_size os + (width + 1) /\
  (width < string_size str + 120 ->
   string_size (pad_left os str width) = string_size (pad_right os str width)).
Proof.
  intros Hw Hfit.
  assert (Hn : 0 <= string_size str) by (unfold string_size; lia).
  assert (Hgap : SizeT.sub width (string_size str) = width - string_size str).
  { unfold SizeT.sub. apply wrap_small. unfold SizeT.modulus. lia. }
  assert (Hlen : string_size (pad_left os str width) = string_size os + (width + 1)).
  { rewrite pad_left_blanks, Hgap. rewrite Z.min_r by lia.
    rewrite !string_size_put, string_size_blanks.
    change (string_size " ") with 1. lia. }
  split.
  - rewrite pad_left_blanks, Hgap. rewrite Z.min_r by lia. reflexivity.
  - split; [exact Hlen |].
    intros Hlt. rewrite Hlen. rewrite pad_right_in_range by lia.
    rewrite !string_size_put, string_size_blanks. lia.
Qed.

Lemma pad_left_fits_witness :
  pad_left EmptyString "42" 6 = "    42 " /\
  string_size (pad_left EmptyString "42" 6) = string_size EmptyString + (6 + 1) /\
  string_size (pad_left EmptyString "42" 6) = string_size (pad_right EmptyString "42" 6).
Proof.
  assert (H1 : 0 <= 6 < 2 ^ 64 - 1) by (split; [discriminate | reflexivity]).
  assert (H2 : string_size "42" <= 6 <= string_size "42" + 120)
    by (split; discriminate).
  destruct (pad_left_fits EmptyString "42" 6 H1 H2) as (E & Hlen & Hsame).
  split; [exact E |]. split; [exact Hlen |].
  apply Hsame. reflexivity.
Defined.

(** X13. [pad_left] outside that range writes exactly 120 blanks before
    the string: when the column is more than 120 wider than the string, and
    also as soon as the string is longer than [width], where
    [width - size] wraps around.  A string of [width + 1] characters, which
    [pad_right] still writes without padding, is already pushed 120
    columns to the right by [pad_left]. *)
Theorem pad_left_out_of_range os str width :
  0 <= width < 2 ^ 64 - 1 ->
  string_size str < 2 ^ 63 ->
  string_size str + 120 < width \/ width < string_size str ->
  pad_left os str width = put (put (put os (blanks 120)) str) " " /\
  string_size (pad_left os str width)
    = string_size os + string_size str + 121 /\
  (string_size str = width + 1 ->
   pad_right os str width = put (put os str) (blanks 0)).
Proof.
  intros Hw Hs Hout.
  assert (Hn : 0 <= string_size str) by (unfold string_size; lia).
  assert (Hgap : 120 < SizeT.sub width (string_size str)).
  { unfold SizeT.sub.
    destruct Hout as [Hwide | Hlong].
    - rewrite wrap_small by (unfold SizeT.modulus; lia). lia.
    - assert (Hwrap : SizeT.wrap (width - string_size str)
                      = width - string_size str + 2 ^ 64).
      { unfold SizeT.wrap, SizeT.modulus. symmetry.
        apply (Z.mod_unique_pos _ _ (-1)); lia. }
      rewrite Hwrap. lia. }
  rewrite pad_left_blanks. rewrite Z.min_l by lia.
  split; [reflexivity |]. split.
  - rewrite !string_size_put, string_size_blanks.
    change (string_size " ") with 1. lia.
  - intros Heq. rewrite pad_right_in_range by lia.
    do 2 f_equal. lia.
Qed.

Lemma pad_left_out_of_range_witness :
  pad_left EmptyString "12345" 4 = put (put (put EmptyString (blanks 120)) "12345") " " /\
  string_size (pad_left EmptyString "12345" 4) = 126 /\
  pad_right EmptyString "12345" 4 = "12345".
Proof.
  assert (H1 : 0 <= 4 < 2 ^ 64 - 1) by (split; [discriminate | reflexivity]).
  assert (H2 : string_size "12345" < 2 ^ 63) by reflexivity.
  assert (H3 : string_size "12345" + 120 < 4 \/ 4 < string_size "12345")
    by (right; reflexivity).
  destruct (pad_left_out_of_range EmptyString "12345" 4 H1 H2 H3) as (E & Hlen & Hr).
  split; [exact E |]. split; [exact Hlen |].
  exact (Hr eq_refl).
Defined.

(** ** Printing the tree *)

Lemma string_app_assoc (a b c : string) : (a +:+ b) +:+ c = a +:+ (b +:+ c).
Proof.
  induction a as [| x a IH]; [reflexivity |].
  change (String x ((a +:+ b) +:+ c) = String x (a +:+ (b +:+ c))).
  f_equal. exact IH.
Qed.

Lemma string_app_nil_r (a : string) : a +:+ EmptyString = a.
Proof.
  induction a as [| x a IH]; [reflexivity |].
  change (String x (a +:+ EmptyString) = String x a). f_equal. exact IH.
Qed.

Lemma put_put os a b : put (put os a) b = put os (a +:+ b).
Proof. unfold put. apply string_app_assoc. Qed.

Lemma pad_right_stream os str width :
  pad_right os str width = put os (pad_right EmptyString str width).
Proof. unfold pad_right. rewrite put_put. reflexivity. Qed.

Lemma pad_left_stream os str width :
  pad_left os str width = put os (pad_left EmptyString str width).
Proof. unfold pad_left. rewrite !put_put. reflexivity. Qed.

Lemma text_app l1 l2 : text (l1 ++ l2) = text l1 +:+ text l2.
Proof.
  induction l1 as [| x l1 IH]; simpl; [reflexivity |].
  rewrite IH. symmetry. apply string_app_assoc.
Qed.

Lemma foldl_stream {B} (f : string -> B -> string) :
  (forall os b, f os b = put os (f EmptyString b)) ->
  forall l os, foldl f os l = put os (foldl f EmptyString l).
Proof.
  intros Hf l. induction l as [| b l IH]; intros os; simpl.
  - unfold put. symmetry. apply string_app_nil_r.
  - rewrite IH. rewrite (IH (f EmptyString b)). rewrite (Hf os b). apply put_put.
Qed.

Section Printing.
Context `{AttributeOps Attribute}.
Variable this : TreeFormatterImpl Attribute.

Lemma print_cell_stream node os a :
  print_cell this node os a = put os (print_cell this node EmptyString a).
Proof.
  unfold print_cell.
  destruct (_ || _); [apply pad_left_stream | apply pad_right_stream].
Qed.

Lemma print_node_stream node level attributes os :
  print_node this node level attributes os
  = put os (print_node this node level attributes EmptyString).
Proof.
  unfold print_node.
  rewrite (foldl_stream _ (print_cell_stream node) attributes
             (pad_right os _ _)).
  rewrite (foldl_stream _ (print_cell_stream node) attributes
             (pad_right EmptyString _ _)).
  rewrite pad_right_stream. rewrite !put_put. reflexivity.
Qed.

Lemma SnapshotTreeNode_forall_ind (P : SnapshotTreeNode Attribute -> Prop) :
  (forall label attrs kids, Forall P kids -> P (TreeNode label attrs kids)) ->
  forall node, P node.
Proof.
  intros Hnode. fix IH 1. intros [label attrs kids]. apply Hnode.
  induction kids as [| k kids IHk]; constructor; [apply IH | exact IHk].
Qed.

Lemma recursive_print_nodes_lines attributes node :
  forall level os,
    recursive_print_nodes this node level attributes os
    = put os (text (map (node_line this attributes) (preorder node level))).
Proof.
  induction node as [label attrs kids IH] using SnapshotTreeNode_forall_ind.
  intros level os. cbn [recursive_print_nodes children preorder map text foldr].
  fold (text (map (node_line this attributes)
                  (flat_map (fun child => preorder child (level + 1)) kids))).
  rewrite print_node_stream.
  change (node_line this attributes (level, TreeNode label attrs kids))
    with (print_node this (TreeNode label attrs kids) level attributes EmptyString).
  generalize (print_node this (TreeNode label attrs kids) level attributes EmptyString).
  intros line. rewrite <- put_put. generalize (put os line). clear os line.
  induction IH as [| k kids Hk _ IHkids]; intros os.
  - simpl. unfold put. symmetry. apply string_app_nil_r.
  - cbn [flat_map]. rewrite map_app, text_app, <- put_put.
    rewrite <- Hk. apply IHkids.
Qed.

End Printing.

Lemma int_to_size_t_small w : 0 <= w < 2 ^ 31 -> Int.to_size_t w = w.
Proof.
  intros Hw. unfold Int.to_size_t. apply wrap_small.
  assert (2 ^ 31 < SizeT.modulus) by reflexivity. lia.
Qed.

Lemma pad_right_size os str w :
  0 <= w < 2 ^ 31 -> fits_left_aligned str w ->
  string_size (pad_right os str (Int.to_size_t w)) = string_size os + (w + 1).
Proof.
  intros Hw Hfit. rewrite int_to_size_t_small by exact Hw.
  assert (2 ^ 31 < 2 ^ 64 - 1) by reflexivity.
  rewrite pad_right_in_range by (unfold fits_left_aligned in Hfit; lia).
  assert (0 <= string_size str) by (unfold string_size; lia).
  unfold fits_left_aligned in Hfit.
  rewrite !string_size_put, string_size_blanks. lia.
Qed.

Lemma pad_left_size os str w :
  0 <= w < 2 ^ 31 -> fits_right_aligned str w ->
  string_size (pad_left os str (Int.to_size_t w)) = string_size os + (w + 1).
Proof.
  intros Hw Hfit. rewrite int_to_size_t_small by exact Hw.
  unfold fits_right_aligned in Hfit.
  assert (0 <= string_size str) by (unfold string_size; lia).
  assert (Hgap : SizeT.sub w (string_size str) = w - string_size str).
  { unfold SizeT.sub. apply wrap_small.
    assert (2 ^ 31 < SizeT.modulus) by reflexivity. lia. }
  rewrite pad_left_blanks, Hgap. rewrite Z.min_r by lia.
  rewrite !string_size_put, string_size_blanks.
  change (string_size " ") with 1. lia.
Qed.

Section Table.
Context `{AttributeOps Attribute}.
Variable this : TreeFormatterImpl Attribute.

Lemma node_line_size attributes entry :
  0 <= m_path_column_width this < 2 ^ 31 ->
  node_fits this attributes entry ->
  string_size (node_line this attributes entry) = line_width this attributes + 1.
Proof.
  intros Hpw (Hlevel & Hpath & Hcells).
  unfold node_line, print_node, line_width.
  rewrite string_size_put. change (string_size endl) with 1.
  assert (Hfold : forall os,
             string_size (foldl (print_cell this entry.2) os attributes)
             = string_size os
               + foldr (fun a acc =>
                          column_width (m_attribute_column_widths this) a + 1 + acc)
                       0 attributes).
  { induction Hcells as [| a attributes [Hw Ha] _ IH]; intros os; simpl; [lia |].
    rewrite IH. unfold print_cell. fold (right_aligned a).
    destruct (right_aligned a).
    - rewrite pad_left_size by assumption. lia.
    - rewrite pad_right_size by assumption. lia. }
  rewrite Hfold. rewrite pad_right_size by assumption.
  change (string_size EmptyString) with 0. lia.
Qed.

Lemma header_line_size attributes :
  4 <= m_path_column_width this <= 123 ->
  Forall (fun a =>
            0 <= column_width (m_attribute_column_widths this) a < 2 ^ 31 /\
            fits_left_aligned (Attribute_name a)
                              (column_width (m_attribute_column_widths this) a))
         attributes ->
  string_size (header_line this attributes) = line_width this attributes + 1.
Proof.
  intros Hpw Hnames. unfold header_line, line_width.
  rewrite string_size_put. change (string_size endl) with 1.
  assert (Hfold : forall os,
             string_size
               (foldl (fun os a =>
                         pad_right os (Attribute_name a)
                           (Int.to_size_t
                              (column_width (m_attribute_column_widths this) a)))
                      os attributes)
             = string_size os
               + foldr (fun a acc =>
                          column_width (m_attribute_column_widths this) a + 1 + acc)
                       0 attributes).
  { induction Hnames as [| a attributes [Hw Ha] _ IH]; intros os; simpl; [lia |].
    rewrite IH. rewrite pad_right_size by assumption. lia. }
  rewrite Hfold.
  assert (2 ^ 31 = 2147483648) by reflexivity.
  rewrite pad_right_size.
  - change (string_size EmptyString) with 0. lia.
  - lia.
  - unfold fits_left_aligned. change (string_size "Path") with 4. lia.
Qed.

End Table.


(** ** [flush] *)

Lemma print_children_lines `{AttributeOps Attribute}
    (this : TreeFormatterImpl Attribute) attributes level kids :
  forall os,
    foldl (fun os child => recursive_print_nodes this child level attributes os)
          os kids
    = put os (text (map (node_line this attributes)
                        (flat_map (fun child => preorder child level) kids))).
Proof.
  induction kids as [| k kids IH]; intros os.
  - simpl. unfold put. symmetry. apply string_app_nil_r.
  - cbn [foldl flat_map]. rewrite IH, recursive_print_nodes_lines.
    rewrite map_app, text_app. apply put_put.
Qed.

Lemma int_of_size_t_small z : 0 <= z < 2 ^ 31 -> Int.of_size_t z = z.
Proof.
  intros Hz. unfold Int.of_size_t.
  rewrite Z.mod_small; [lia |].
  assert (2 ^ 31 + 2 ^ 31 = 2 ^ 32) by reflexivity. lia.
Qed.

Lemma select_attributes_title `{AttributeOps Attribute}
    (db : string -> Attribute) (this : TreeFormatterImpl Attribute) cerr :
  select_attributes db (with_title_width this) cerr
  = select_attributes db this cerr.
Proof. reflexivity. Qed.

Lemma flush_eq `{AttributeOps Attribute}
    (db : string -> Attribute) (this : TreeFormatterImpl Attribute)
    (os cerr : string) :
  let this' := with_title_width this in
  let attributes := (select_attributes db this cerr).1 in
  let os1 :=
    put (foldl (fun os a =>
                  pad_right os (Attribute_name a)
                    (Int.to_size_t
                       (column_width (m_attribute_column_widths this') a)))
               (pad_right os "Path" (Int.to_size_t (m_path_column_width this')))
               attributes) endl in
  flush db this os cerr
  = (match m_tree_root this with
     | Some node =>
         foldl (fun os child => recursive_print_nodes this' child 0 attributes os)
               os1 (children node)
     | None => os1
     end,
     (select_attributes db this cerr).2).
Proof.
  intros this' attributes os1. subst this' attributes os1.
  unfold flush. rewrite <- (select_attributes_title db this cerr).
  unfold with_title_width.
  destruct (select_attributes db _ cerr) as [attrs cerr'].
  cbn [fst snd m_tree_root].
  destruct (m_tree_root this); reflexivity.
Qed.

(** X15. [flush] first raises the path column to at least the 4
    characters of its title, then writes the header line ("Path" and the
    name of every selected attribute, all left-aligned) and after it the
    lines of the nodes below the root, the root's children at level 0;
    the root itself is not printed, and with no root or a root without
    children the header is all there is.  When the path column is at most
    123 wide and every name and every cell fits its column, the header and
    all node lines have the same length. *)
Theorem flush_table `{AttributeOps Attribute}
    (db : string -> Attribute) (this : TreeFormatterImpl Attribute)
    (os cerr : string) :
  0 <= m_path_column_width this < 2 ^ 31 ->
  let this' := with_title_width this in
  let attributes := (select_attributes db this cerr).1 in
  m_path_column_width this' = Z.max (m_path_column_width this) 4 /\
  flush db this os cerr
    = (put os (header_line this' attributes
               +:+ text (map (node_line this' attributes) (printed_nodes this))),
       (select_attributes db this cerr).2) /\
  (printed_nodes this = [] ->
   (flush db this os cerr).1 = put os (header_line this' attributes)) /\
  (m_path_column_width this <= 123 ->
   Forall (fun a =>
             0 <= column_width (m_attribute_column_widths this) a < 2 ^ 31 /\
             fits_left_aligned (Attribute_name a)
                               (column_width (m_attribute_column_widths this) a))
          attributes ->
   Forall (node_fits this' attributes) (printed_nodes this) ->
   Forall (fun line => string_size line = line_width this' attributes + 1)
          (header_line this' attributes
           :: map (node_line this' attributes) (printed_nodes this))).
Proof.
  intros Hpw this' attributes.
  assert (Hpw' : m_path_column_width this' = Z.max (m_path_column_width this) 4).
  { unfold this', with_title_width. cbn [m_path_column_width].
    rewrite int_to_size_t_small by exact Hpw.
    apply int_of_size_t_small.
    assert (4 < 2 ^ 31) by reflexivity. lia. }
  assert (Hflush : flush db this os cerr
    = (put os (header_line this' attributes
               +:+ text (map (node_line this' attributes) (printed_nodes this))),
       (select_attributes db this cerr).2)).
  { rewrite flush_eq. fold this' attributes. f_equal.
    set (names := fun os a =>
           pad_right os (Attribute_name a)
             (Int.to_size_t (column_width (m_attribute_column_widths this') a))).
    assert (Hhead : put (foldl names
                           (pad_right os "Path"
                              (Int.to_size_t (m_path_column_width this')))
                           attributes) endl
                    = put os (header_line this' attributes)).
    { unfold header_line. fold names.
      rewrite (foldl_stream names) by (intros; apply pad_right_stream).
      rewrite (foldl_stream names (fun os0 b => pad_right_stream os0 _ _)
                 attributes (pad_right EmptyString _ _)).
      rewrite pad_right_stream. rewrite !put_put. reflexivity. }
    rewrite Hhead. unfold printed_nodes.
    destruct (m_tree_root this) as [root |].
    - rewrite print_children_lines. rewrite put_put. reflexivity.
    - simpl. rewrite string_app_nil_r. reflexivity. }
  split; [exact Hpw' |]. split; [exact Hflush |]. split.
  - intros Hnone. rewrite Hflush, Hnone. simpl.
    rewrite string_app_nil_r. reflexivity.
  - intros Hle Hnames Hnodes. constructor.
    + apply header_line_size; [rewrite Hpw'; lia | exact Hnames].
    + apply Forall_map. eapply Forall_impl; [exact Hnodes |]. simpl.
      intros entry Hentry. apply node_line_size; [| exact Hentry].
      rewrite Hpw'. assert (4 < 2 ^ 31) by reflexivity. lia.
Qed.

Lemma flush_table_witness :
  0 <= m_path_column_width sample_formatter < 2 ^ 31 /\
  flush sample_db sample_formatter EmptyString EmptyString
    = ("Path    kind time " +:+ endl +:+
       "main    loop 12.5 " +:+ endl +:+
       "  foo        3.25 " +:+ endl, EmptyString) /\
  Forall (fun line => string_size line = 18 + 1)
         (header_line (with_title_width sample_formatter) [attr_kind; attr_time]
          :: map (node_line (with_title_width sample_formatter)
                            [attr_kind; attr_time])
                 (printed_nodes sample_formatter)).
Proof.
  assert (Hpw : 0 <= m_path_column_width sample_formatter < 2 ^ 31)
    by (split; [discriminate | reflexivity]).
  destruct (flush_table sample_db sample_formatter EmptyString EmptyString Hpw)
    as (_ & Hflush & _ & Hsizes).
  split; [exact Hpw |]. split.
  - exact (eq_trans Hflush eq_refl).
  - apply Hsizes.
    + discriminate.
    + repeat constructor; discriminate.
    + repeat constructor; discriminate.
Defined.


(** ** The choice of columns *)

Lemma foldl_push_filter {A B} (keep : A -> bool) (g : A -> B)
    (f : list B -> A -> list B) :
  (forall acc p, f acc p = if keep p then acc ++ [g p] else acc) ->
  forall l acc, foldl f acc l = acc ++ map g (List.filter keep l).
Proof.
  intros Hf l. induction l as [| p l IH]; intros acc; simpl.
  - symmetry. apply app_nil_r.
  - rewrite IH, Hf. destruct (keep p); simpl; [| reflexivity].
    rewrite <- app_assoc. reflexivity.
Qed.

Lemma cali_prefix_test name :
  String.eqb (String.substring 0 5 name) "cali." = String.prefix "cali." name.
Proof.
  destruct (String.prefix "cali." name) eqn:Hp.
  - apply String.prefix_correct in Hp. simpl in Hp. rewrite Hp. reflexivity.
  - apply String.eqb_neq. intros Heq.
    assert (String.prefix "cali." name = true)
      by (apply String.prefix_correct; exact Heq).
    congruence.
Qed.

Lemma foldl_listed `{AttributeOps Attribute} (db : string -> Attribute) names :
  forall attrs cerr,
    foldl (fun (acc : list Attribute * string) (s : string) =>
             let attr := db s in
             if decide (attr = Attribute_invalid)
             then (acc.1,
                   put (put (put (put (put acc.2
                     "cali-query: TreeFormatter: Attribute ")
                     (String Ascii.DoubleQuote EmptyString)) s)
                     (String Ascii.DoubleQuote " not found.")) endl)
             else (acc.1 ++ [attr], acc.2))
          (attrs, cerr) names
    = (attrs ++ List.filter (fun a => negb (bool_decide (a = Attribute_invalid)))
                            (map db names),
       cerr +:+ text (map not_found_message
                          (List.filter (fun s => bool_decide (db s = Attribute_invalid))
                                       names))).
Proof.
  induction names as [| s names IH]; intros attrs cerr.
  - simpl. rewrite app_nil_r, string_app_nil_r. reflexivity.
  - cbn [foldl map List.filter]. cbv zeta.
    destruct (decide (db s = Attribute_invalid)) as [Hinv | Hok].
    + rewrite IH. rewrite (bool_decide_eq_true_2 _ Hinv).
      cbn [negb fst snd map text foldr]. f_equal.
      fold (text (map not_found_message
                   (List.filter (fun s0 => bool_decide (db s0 = Attribute_invalid))
                                names))).
      unfold not_found_message, put. rewrite !string_app_assoc. reflexivity.
    + rewrite IH. rewrite (bool_decide_eq_false_2 _ Hok).
      cbn [negb fst snd]. rewrite <- app_assoc. reflexivity.
Qed.

(** X16. The columns [flush] prints, by selection mode.  [Default]: the
    attributes of the width map in its order, without the hidden ones and
    without those whose name begins with ["cali."]; [All]: every attribute
    of the map; [List]: the listed names in their order, looked up in
    [db], each unknown name dropped and reported by one line on
    [std::cerr], so no column is ever the invalid attribute; [None]: no
    attribute column.  Only [List] writes to [std::cerr]. *)
Theorem select_attributes_columns `{AttributeOps Attribute}
    (db : string -> Attribute) (this : TreeFormatterImpl Attribute)
    (cerr : string) :
  let widths := m_attribute_column_widths this in
  let listed := QuerySpec.names (m_attribute_columns this) in
  select_attributes db this cerr =
    match QuerySpec.selection (m_attribute_columns this) with
    | QuerySpec.Default =>
        (map fst (List.filter
                    (fun p => negb (Attribute_is_hidden p.1)
                              && negb (String.prefix "cali." (Attribute_name p.1)))
                    widths),
         cerr)
    | QuerySpec.All => (map fst widths, cerr)
    | QuerySpec.List =>
        (List.filter (fun a => negb (bool_decide (a = Attribute_invalid)))
                     (map db listed),
         cerr +:+ text (map not_found_message
                            (List.filter
                               (fun s => bool_decide (db s = Attribute_invalid))
                               listed)))
    | QuerySpec.None => ([], cerr)
    end.
Proof.
  intros widths listed. unfold select_attributes.
  destruct (QuerySpec.selection (m_attribute_columns this)).
  - f_equal. fold widths.
    rewrite (foldl_push_filter
               (fun p => negb (Attribute_is_hidden p.1)
                         && negb (String.prefix "cali." (Attribute_name p.1)))
               fst); [reflexivity |].
    intros acc p. rewrite cali_prefix_test.
    destruct (Attribute_is_hidden p.1); [reflexivity |].
    destruct (String.prefix "cali." (Attribute_name p.1)); reflexivity.
  - f_equal. fold widths.
    rewrite (foldl_push_filter (fun _ => true) fst).
    + simpl. f_equal. clear. induction widths as [| p l IH]; simpl; congruence.
    + reflexivity.
  - fold listed. rewrite foldl_listed. reflexivity.
  - reflexivity.
Qed.

(** X17. A column without an entry in the width map (a listed attribute
    that no record carried) is printed with width 0: for a name of two or
    more characters [1 + 0 - size] wraps around and the header cell is the
    name followed by 120 blanks. *)
Theorem header_without_width `{AttributeOps Attribute}
    (widths : list (Attribute * Z)) (a : Attribute) (os : string) :
  Forall (fun p => p.1 <> a) widths ->
  2 <= string_size (Attribute_name a) < 2 ^ 63 ->
  column_width widths a = 0 /\
  pad_right os (Attribute_name a) (Int.to_size_t (column_width widths a))
    = put (put os (Attribute_name a)) (blanks 120).
Proof.
  intros Hnone Hname.
  assert (Hw : column_width widths a = 0).
  { induction Hnone as [| [k w] l Hk _ IH]; simpl; [reflexivity |].
    destruct (decide (k = a)); [contradiction | exact IH]. }
  split; [exact Hw |]. rewrite Hw.
  change (Int.to_size_t 0) with 0.
  rewrite pad_right_blanks.
  assert (Hgap : 120 < SizeT.sub (SizeT.add 1 0) (string_size (Attribute_name a))).
  { change (SizeT.add 1 0) with 1. unfold SizeT.sub.
    assert (Hwrap : SizeT.wrap (1 - string_size (Attribute_name a))
                    = 1 - string_size (Attribute_name a) + 2 ^ 64).
    { unfold SizeT.wrap, SizeT.modulus. symmetry.
      apply (Z.mod_unique_pos _ _ (-1)); lia. }
    rewrite Hwrap. lia. }
  rewrite Z.min_l by lia. reflexivity.
Qed.

Lemma header_without_width_witness :
  Forall (fun p : SampleAttribute * Z => p.1 <> attr_time) [(attr_kind, 4)] /\
  2 <= string_size (Attribute_name attr_time) < 2 ^ 63 /\
  column_width [(attr_kind, 4)] attr_time = 0 /\
  pad_right EmptyString (Attribute_name attr_time)
            (Int.to_size_t (column_width [(attr_kind, 4)] attr_time))
    = put (put EmptyString "time") (blanks 120).
Proof.
  assert (H1 : Forall (fun p : SampleAttribute * Z => p.1 <> attr_time)
                      [(attr_kind, 4)])
    by (repeat constructor; discriminate).
  assert (H2 : 2 <= string_size (Attribute_name attr_time) < 2 ^ 63)
    by (split; [discriminate | reflexivity]).
  split; [exact H1 |]. split; [exact H2 |].
  exact (header_without_width [(attr_kind, 4)] attr_time EmptyString H1 H2).
Defined.

(** ** The path keys *)

Lemma take_drop_step {A} (R K : list A) (i : nat) (r : A) :
  R !! i = Some r -> length R = length K ->
  <[i := r]> (take i R ++ drop i K) = take (S i) R ++ drop (S i) K.
Proof.
  intros Hr Hlen.
  assert (Hi : (i < length K)%nat) by (apply lookup_lt_Some in Hr; lia).
  destruct (lookup_lt_is_Some_2 K i Hi) as [k Hk].
  assert (Htake : length (take i R) = i) by (rewrite length_take; lia).
  rewrite insert_app_r_alt by lia. rewrite Htake, Nat.sub_diag.
  rewrite (drop_S K k i Hk). simpl.
  rewrite (take_S_r R i r Hr). rewrite <- app_assoc. reflexivity.
Qed.

Section PathKeys.
Context `{AttributeOps Attribute}.
Variable db : string -> Attribute.
Variable names : list string.

Lemma resolve_key_idempotent key name :
  resolve_key db (resolve_key db key name) name = resolve_key db key name.
Proof.
  unfold resolve_key.
  destruct (decide (key = Attribute_invalid)) as [Hk | Hk].
  - destruct (decide (db name = Attribute_invalid)); reflexivity.
  - destruct (decide (key = Attribute_invalid)); [contradiction | reflexivity].
Qed.

Lemma get_path_keys_loop_resolves (keys : list Attribute) :
  length names = length keys ->
  let R := zip_with (resolve_key db) keys names in
  forall count i,
    (i + count = length keys)%nat ->
    get_path_keys_loop db names i count
      (take i R ++ drop i keys, take i R ++ drop i keys)
    = Ret (R, R).
Proof.
  intros Hlen R.
  assert (HR : length R = length keys).
  { unfold R. rewrite length_zip_with. lia. }
  induction count as [| count IH]; intros i Hi.
  - simpl. rewrite Nat.add_0_r in Hi. subst i.
    rewrite <- HR at 1 3. rewrite firstn_all.
    rewrite drop_all. rewrite app_nil_r. reflexivity.
  - assert (Hik : (i < length keys)%nat) by lia.
    destruct (lookup_lt_is_Some_2 keys i Hik) as [k Hk].
    destruct (lookup_lt_is_Some_2 names i ltac:(lia)) as [name Hname].
    assert (Hr : R !! i = Some (resolve_key db k name)).
    { unfold R. rewrite lookup_zip_with, Hk. simpl. rewrite Hname. reflexivity. }
    assert (Htake : length (take i R) = i) by (rewrite length_take; lia).
    assert (Hcur : (take i R ++ drop i keys) !! i = Some k).
    { rewrite lookup_app_r by lia. rewrite Htake, Nat.sub_diag.
      rewrite lookup_drop. rewrite Nat.add_0_r. exact Hk. }
    assert (Hstep : get_path_keys_step db names
                      (take i R ++ drop i keys, take i R ++ drop i keys) i
                    = Ret (take (S i) R ++ drop (S i) keys,
                           take (S i) R ++ drop (S i) keys)).
    { unfold get_path_keys_step. rewrite Hcur.
      rewrite <- (take_drop_step R keys i _ Hr HR).
      unfold resolve_key.
      destruct (decide (k = Attribute_invalid)) as [Hinv | Hval].
      - rewrite Hname. cbv zeta.
        destruct (decide (db name = Attribute_invalid)) as [Hdb | Hdb].
        + rewrite list_insert_id; [reflexivity |].
          rewrite Hcur. congruence.
        + rewrite decide_True; [reflexivity |].
          rewrite length_app, Htake, length_drop. lia.
      - rewrite list_insert_id by exact Hcur. reflexivity. }
    cbn [get_path_keys_loop]. rewrite Hstep. cbn [bind].
    apply IH. lia.
Qed.

Lemma get_path_keys_eq (keys : list Attribute) :
  length names = length keys ->
  get_path_keys db names keys
  = Ret (zip_with (resolve_key db) keys names,
         zip_with (resolve_key db) keys names).
Proof.
  intros Hlen. unfold get_path_keys.
  exact (get_path_keys_loop_resolves keys Hlen (length keys) 0%nat eq_refl).
Qed.

End PathKeys.

Lemma zip_resolve_idempotent `{AttributeOps Attribute}
    (db : string -> Attribute) (keys : list Attribute) :
  forall names,
    zip_with (resolve_key db) (zip_with (resolve_key db) keys names) names
    = zip_with (resolve_key db) keys names.
Proof.
  induction keys as [| k keys IH]; intros [| n names]; simpl; try reflexivity.
  rewrite resolve_key_idempotent. f_equal. apply IH.
Qed.

Lemma zip_resolve_valid `{AttributeOps Attribute}
    (db : string -> Attribute) (keys : list Attribute) :
  Forall (fun key => key <> Attribute_invalid) keys ->
  forall names, length names = length keys ->
                zip_with (resolve_key db) keys names = keys.
Proof.
  induction 1 as [| k keys Hk _ IH]; intros [| n names] Hlen;
    try discriminate; simpl; [reflexivity |].
  unfold resolve_key at 1.
  destruct (decide (k = Attribute_invalid)); [contradiction |].
  f_equal. apply IH. simpl in Hlen. lia.
Qed.

(** X18. [get_path_keys], with as many keys as names (what [configure]
    sets up): the call returns without undefined behaviour; every key that
    was valid is kept, every invalid one is replaced by what [db] knows
    for its name (and stays invalid if [db] does not know it); the member
    [m_path_keys] ends up equal to the returned vector.  A second call with
    the same [db] changes nothing, and once all keys are valid the result
    no longer depends on [db] at all. *)
Theorem get_path_keys_resolves `{AttributeOps Attribute}
    (db : string -> Attribute) (names : list string) (keys : list Attribute) :
  length names = length keys ->
  let resolved := zip_with (resolve_key db) keys names in
  get_path_keys db names keys = Ret (resolved, resolved) /\
  length resolved = length keys /\
  get_path_keys db names resolved = Ret (resolved, resolved) /\
  (Forall (fun key => key <> Attribute_invalid) keys ->
   forall db', get_path_keys db' names keys = Ret (keys, keys)).
Proof.
  intros Hlen resolved.
  assert (Hres : length resolved = length keys).
  { unfold resolved. rewrite length_zip_with. lia. }
  split; [apply get_path_keys_eq; exact Hlen |].
  split; [exact Hres |]. split.
  - rewrite get_path_keys_eq by lia.
    unfold resolved. rewrite zip_resolve_idempotent. reflexivity.
  - intros Hvalid db'. rewrite get_path_keys_eq by exact Hlen.
    rewrite zip_resolve_valid by assumption. reflexivity.
Qed.

Lemma get_path_keys_resolves_witness :
  length ["time"; "nope"; "kind"]
    = length [attr_time; Attribute_invalid; Attribute_invalid] /\
  get_path_keys sample_db ["time"; "nope"; "kind"]
                [attr_time; Attribute_invalid; Attribute_invalid]
    = Ret ([attr_time; Attribute_invalid; attr_kind],
           [attr_time; Attribute_invalid; attr_kind]).
Proof.
  assert (Hlen : length ["time"; "nope"; "kind"]
                 = length [attr_time; Attribute_invalid; Attribute_invalid])
    by reflexivity.
  split; [exact Hlen |].
  exact (proj1 (get_path_keys_resolves sample_db ["time"; "nope"; "kind"]
                  [attr_time; Attribute_invalid; Attribute_invalid] Hlen)).
Defined.
